(** * gh-secrets-cli: name validation, device-flow polling and secret upload

    A shallow embedding of the TypeScript sources
      - env-parser.ts  ([validateSecretName], [filterValidSecrets]),
      - oauth.ts       ([GitHubOAuthDevice.pollForAccessToken]),
      - github.ts      ([GitHubService.encryptSecret],
                        [createOrUpdateRepoSecret], [batchCreateSecrets]),
    followed by the properties established about them. *)

From Stdlib Require Import Bool Arith ZArith NArith Lia List Ascii String.
From Stdlib.Strings Require Import Byte.
From Stdlib Require Import Permutation.
Import ListNotations.

Set Implicit Arguments.

Local Open Scope string_scope.
Local Open Scope list_scope.

(* ===================================================================== *)
(** * Part I: definitions                                                 *)
(* ===================================================================== *)

(** ** JavaScript values used by the sources *)

Module Js.

(** A thrown value.  [new Error(msg)] (and every library exception, which
    is an [Error] too) is [JsError msg]; any other thrown value is kept
    through what [String(value)] gives for it. *)
Inductive exn : Type :=
| JsError (message : string)
| JsThrown (shown : string).

(** [error instanceof Error ? error.message : String(error)] *)
Definition error_text (e : exn) : string :=
  match e with
  | JsError m => m
  | JsThrown s => s
  end.

(** The outcome of an expression that may throw (or of an awaited
    promise that may reject). *)
Inductive result (A : Type) : Type :=
| Ok (a : A)
| Err (e : exn).
Arguments Err {A} e.

(** A property that is either absent ([undefined]) or a string. *)
Definition prop := option string.

(** JavaScript truthiness of such a property: [undefined] and the empty
    string are falsy, every other string is truthy. *)
Definition truthy (p : prop) : bool :=
  match p with
  | Some s => negb (s =? "")
  | None => false
  end.

(** [p === lit] for a string literal [lit]. *)
Definition strict_eq (p : prop) (lit : string) : bool :=
  match p with
  | Some s => s =? lit
  | None => false
  end.

(** [`${p}`] *)
Definition template (p : prop) : string :=
  match p with
  | Some s => s
  | None => "undefined"
  end.

(** A plain object with string values, as the list of its own enumerable
    properties in the order [Object.entries] enumerates them.  The keys of
    such a list are pairwise distinct ([well_formed]). *)
Definition record := list (string * string).

Definition keys (o : record) : list string := map fst o.

Definition well_formed (o : record) : Prop := NoDup (keys o).

Fixpoint define_property (o : record) (k v : string) : record :=
  match o with
  | [] => [(k, v)]
  | (k', v') :: o' =>
      if k =? k' then (k, v) :: o' else (k', v') :: define_property o' k v
  end.

(** [o[k] = v] on an object created by the literal [{}], for a key [k]
    that is not an array index.  Such an object inherits the accessor
    [__proto__] of [Object.prototype]: assigning a string through it
    changes nothing and creates no own property.  Every other key
    becomes (or updates) an own property. *)
Definition assign (o : record) (k v : string) : record :=
  if k =? "__proto__" then o else define_property o k v.

End Js.

Import Js.

(** ** Regular expressions (the fragment the sources use) *)

Module Regex.

Inductive regex : Type :=
| Bol                                   (* ^ *)
| Eol                                   (* $ (no m flag) *)
| Lit (l : list ascii)                  (* a literal run of characters *)
| Class (ranges : list (ascii * ascii)) (* [a-z...] *)
| Seq (a b : regex)
| Star (a : regex)                      (* greedy a* *)
| NegLookahead (a : regex).             (* (?!a) *)

Definition in_range (c : ascii) (r : ascii * ascii) : bool :=
  Nat.leb (nat_of_ascii (fst r)) (nat_of_ascii c)
  && Nat.leb (nat_of_ascii c) (nat_of_ascii (snd r)).

Definition in_class (ranges : list (ascii * ascii)) (c : ascii) : bool :=
  existsb (in_range c) ranges.

Fixpoint strip (l s : list ascii) : option (list ascii) :=
  match l, s with
  | [], _ => Some s
  | _ :: _, [] => None
  | x :: l', c :: s' => if Ascii.eqb x c then strip l' s' else None
  end.

(** A matcher state is the index of the current position and the input
    that remains from there; [k] is what is still to be matched. *)
Definition cont := nat -> list ascii -> bool.

(** Iterations of a starred expression: greedy, and an iteration that
    consumes nothing is refused, so [fuel = length s] iterations are
    always enough. *)
Fixpoint star_loop (m : nat -> list ascii -> cont -> bool) (k : cont)
         (fuel i : nat) (s : list ascii) : bool :=
  match fuel with
  | O => k i s
  | S fuel' =>
      m i s (fun i' s' => (i <? i')%nat && star_loop m k fuel' i' s') || k i s
  end.

(** Nothing is left to match. *)
Definition accept : cont := fun _ _ => true.

Fixpoint rmatch (r : regex) (i : nat) (s : list ascii) (k : cont) : bool :=
  match r with
  | Bol => (i =? 0)%nat && k i s
  | Eol => match s with [] => k i s | _ :: _ => false end
  | Lit l =>
      match strip l s with
      | Some s' => k (i + List.length l)%nat s'
      | None => false
      end
  | Class ranges =>
      match s with
      | c :: s' => in_class ranges c && k (S i) s'
      | [] => false
      end
  | Seq a b => rmatch a i s (fun i' s' => rmatch b i' s' k)
  | Star a => star_loop (rmatch a) k (List.length s) i s
  | NegLookahead a => negb (rmatch a i s accept) && k i s
  end.

(** A match attempt starting at every index of the input, leftmost first. *)
Fixpoint search (r : regex) (i : nat) (s : list ascii) : bool :=
  rmatch r i s accept
  || match s with
     | [] => false
     | _ :: s' => search r (S i) s'
     end.

(** [pattern.test(name)] for a pattern without the g and y flags.  The
    patterns of the sources only name characters below 128; any other
    character of a name is outside every class and literal, whether it is
    read as one code unit or as several bytes. *)
Definition test (r : regex) (name : string) : bool :=
  search r 0 (list_ascii_of_string name).

End Regex.

(** ** env-parser: secret names *)

Module EnvParser.
Import Regex.

Definition upper : ascii * ascii := ("A"%char, "Z"%char).
Definition lower : ascii * ascii := ("a"%char, "z"%char).
Definition digit : ascii * ascii := ("0"%char, "9"%char).
Definition underscore : ascii * ascii := ("_"%char, "_"%char).

(** [/^(?!GITHUB_)[A-Za-z_][A-Za-z0-9_]*$/] *)
Definition pattern : regex :=
  Seq Bol
    (Seq (NegLookahead (Lit (list_ascii_of_string "GITHUB_")))
       (Seq (Class [upper; lower; underscore])
          (Seq (Star (Class [upper; lower; digit; underscore]))
             Eol))).

Definition validateSecretName (name : string) : bool :=
  test pattern name.

(** The loop body of [filterValidSecrets]: the accumulators are the
    object [valid] and the array [invalid]. *)
Definition filter_step (acc : record * list string) (entry : string * string)
  : record * list string :=
  let '(valid, invalid) := acc in
  let '(name, value) := entry in
  if validateSecretName name
  then (assign valid name value, invalid)
  else (valid, invalid ++ [name]).

(** [for (const [name, value] of Object.entries(secrets))] *)
Definition filterValidSecrets (secrets : record) : record * list string :=
  fold_left filter_step secrets ([], []).

(** *** The rule in the words of the specification *)

Definition name_start (c : ascii) : bool :=
  in_class [upper; lower; underscore] c.

Definition name_char (c : ascii) : bool :=
  in_class [upper; lower; digit; underscore] c.

(** [name] matches [^[A-Za-z_][A-Za-z0-9_]*$]. *)
Definition identifier_shape (name : string) : bool :=
  match list_ascii_of_string name with
  | [] => false
  | c :: rest => name_start c && forallb name_char rest
  end.

(** [name] starts with the prefix [GITHUB_], compared case-sensitively. *)
Definition reserved_prefix (name : string) : bool :=
  String.prefix "GITHUB_" name.

Definition isValidName_spec (name : string) : bool :=
  identifier_shape name && negb (reserved_prefix name).

(** The partition in the words of the specification: the entries with a
    valid name, values untouched, and the other names, both in the order
    of the input. *)
Definition valid_entry (e : string * string) : bool :=
  validateSecretName (fst e).

Definition partition_spec (secrets : record) : record * list string :=
  (filter valid_entry secrets,
   keys (filter (fun e => negb (valid_entry e)) secrets)).

End EnvParser.

(** ** oauth: polling the token endpoint *)

Module OAuth.

(** The JSON object the token endpoint answers with: either [{error}] or
    [{access_token, token_type, scope}] (interface [AccessTokenResponse]);
    a missing field reads as [undefined]. *)
Record TokenData : Type := {
  error : prop;
  access_token : prop;
  token_type : prop;
  scope : prop
}.

Record OAuthConfig : Type := {
  clientId : string;
  scopes : list string
}.

(** What one attempt does that can be observed from outside. *)
Inductive event : Type :=
| Post (url client_id device_code grant_type : string)
| SetTimeout (ms : Z).

(** What one run of the closure [poll] ends with. *)
Inductive action : Type :=
| Schedule (ms : Z)            (* setTimeout(poll, ms); return *)
| Resolve (data : TokenData)   (* resolve(data) *)
| Reject (e : exn).            (* reject(e) *)

(** The promise returned by [pollForAccessToken]. *)
Inductive promise : Type :=
| Resolved (data : TokenData)
| Rejected (e : exn)
| Pending.

(** The body of the [try] block after [const data = response.data]. *)
Definition on_response (interval : Z) (data : TokenData) : action :=
  if truthy (error data) then
    if strict_eq (error data) "authorization_pending" then
      Schedule (interval * 1000)
    else if strict_eq (error data) "slow_down" then
      Schedule ((interval + 5) * 1000)
    else if strict_eq (error data) "expired_token" then
      Reject (JsError "Device code expired. Please try again.")
    else if strict_eq (error data) "access_denied" then
      Reject (JsError "Access denied by user.")
    else
      Reject (JsError ("OAuth error: " ++ template (error data))%string)
  else if truthy (access_token data) then
    Resolve data
  else
    Schedule (interval * 1000).

(** One run of [poll] given how [axios.post] settled: a rejection of the
    request lands in [catch (error) { reject(error) }]. *)
Definition poll_once (interval : Z) (answer : result TokenData) : action :=
  match answer with
  | Ok data => on_response interval data
  | Err e => Reject e
  end.

Definition token_request (this : OAuthConfig) (deviceCode : string) : event :=
  Post "https://github.com/login/oauth/access_token"
       (clientId this) deviceCode
       "urn:ietf:params:oauth:grant-type:device_code".

(** [pollForAccessToken(deviceCode, interval)] against a token endpoint
    whose successive answers are [answers]: the events of the attempt, in
    order, and the state of the returned promise.  When the answers run
    out the last request is in flight and the promise is still pending. *)
Fixpoint pollForAccessToken (this : OAuthConfig) (deviceCode : string)
         (interval : Z) (answers : list (result TokenData))
  : list event * promise :=
  match answers with
  | [] => ([token_request this deviceCode], Pending)
  | answer :: later =>
      match poll_once interval answer with
      | Schedule ms =>
          let '(events, p) := pollForAccessToken this deviceCode interval later in
          (token_request this deviceCode :: SetTimeout ms :: events, p)
      | Resolve data => ([token_request this deviceCode], Resolved data)
      | Reject e => ([token_request this deviceCode], Rejected e)
      end
  end.

(** *** Observations on a trace *)

Definition is_post (e : event) : bool :=
  match e with Post _ _ _ _ => true | SetTimeout _ => false end.

(** The delays of the timers set during an attempt, in order. *)
Fixpoint waits (events : list event) : list Z :=
  match events with
  | [] => []
  | SetTimeout ms :: rest => ms :: waits rest
  | Post _ _ _ _ :: rest => waits rest
  end.

Definition requests (events : list event) : nat :=
  List.length (filter is_post events).

(** An answer after which the attempt goes on polling. *)
Definition keeps_polling (interval : Z) (answer : result TokenData) : bool :=
  match poll_once interval answer with
  | Schedule _ => true
  | _ => false
  end.

(** The events of an attempt while it goes through answers that all keep
    it polling: a request and a timer for each. *)
Fixpoint polling_events (this : OAuthConfig) (deviceCode : string)
         (interval : Z) (answers : list (result TokenData)) : list event :=
  match answers with
  | [] => []
  | answer :: later =>
      match poll_once interval answer with
      | Schedule ms =>
          token_request this deviceCode :: SetTimeout ms
            :: polling_events this deviceCode interval later
      | _ => []
      end
  end.

Definition with_access_token (data : TokenData) (token : prop) : TokenData :=
  {| error := error data; access_token := token;
     token_type := token_type data; scope := scope data |}.

(** The value an action resolves the promise with, if it does. *)
Definition resolution (a : action) : option TokenData :=
  match a with Resolve data => Some data | _ => None end.

(** The message of the [Error] a terminal error code is rejected with. *)
Definition terminal_message (code : prop) : string :=
  if strict_eq code "expired_token" then "Device code expired. Please try again."
  else if strict_eq code "access_denied" then "Access denied by user."
  else ("OAuth error: " ++ template code)%string.

(** *** The backoff rule in the words of the specification

    The effective interval starts as [interval]; [slow_down] adds 5 seconds
    to it for this wait and all later ones; every wait lasts the effective
    interval.  Only answers that keep the attempt polling are listed. *)
Fixpoint waits_spec (effective : Z) (errors : list string) : list Z :=
  match errors with
  | [] => []
  | e :: rest =>
      let effective' := if e =? "slow_down" then (effective + 5)%Z else effective in
      (effective' * 1000)%Z :: waits_spec effective' rest
  end.

Definition error_answer (code : string) : result TokenData :=
  Ok {| error := Some code; access_token := None;
        token_type := None; scope := None |}.

Definition token_answer (token scope_ : string) : result TokenData :=
  Ok {| error := None; access_token := Some token;
        token_type := Some "bearer"; scope := Some scope_ |}.

(** A client to run attempts with. *)
Definition demo_config : OAuthConfig :=
  {| clientId := "Iv1.0123456789abcdef"; scopes := ["repo"] |}.

End OAuth.

(** ** oauth.ts: what [axios.post] hands over *)

Module OAuthResponse.
Import OAuth.

(** [response.data], the parsed JSON body: the value [null], or an
    object. *)
Inductive body : Type :=
| Null
| Object (data : TokenData).

(** The TypeError that reading [data.error] throws when [data] is
    [null]. *)
Definition null_body_error : exn :=
  JsError "Cannot read properties of null (reading 'error')".

(** How the [try] block of [poll] gets to the fields of [data]: a request
    that rejects, and a body [null] on which [data.error] throws, both
    end in [catch (error) { reject(error) }]. *)
Definition read (response : result body) : result TokenData :=
  match response with
  | Ok (Object data) => Ok data
  | Ok Null => Err null_body_error
  | Err e => Err e
  end.

(** [pollForAccessToken(deviceCode, interval)] against the successive
    responses of the token endpoint, bodies [null] included. *)
Definition pollForAccessToken_on (this : OAuthConfig) (deviceCode : string)
           (interval : Z) (responses : list (result body))
  : list event * promise :=
  pollForAccessToken this deviceCode interval (map read responses).

(** A body with no field at all. *)
Definition empty_object : TokenData :=
  {| error := None; access_token := None; token_type := None; scope := None |}.

End OAuthResponse.

(** ** github.ts: sealing and uploading secrets *)

Module GitHub.

Definition bytes := list byte.

Record PublicKey : Type := {
  key_id : string;
  key : string
}.

(** The requests of [octokit.request] that the upload path issues. *)
Inductive request : Type :=
| GetPublicKey (owner repo : string)
    (* GET /repos/{owner}/{repo}/actions/secrets/public-key *)
| PutSecret (owner repo secret_name encrypted_value key_id : string).
    (* PUT /repos/{owner}/{repo}/actions/secrets/{secret_name} *)

(** What the service calls and does not define: libsodium and the REST
    API behind octokit.  [W] is the state of everything outside the
    process (the server, the state of the random generator from which
    [crypto_box_seal] draws its ephemeral key).  A library call that
    throws, and a request that rejects, return [Err]. *)
Record Platform (W : Type) : Type := {
  from_base64 : string -> result bytes;
      (* sodium.from_base64(_, base64_variants.ORIGINAL) *)
  from_string : string -> bytes;
      (* sodium.from_string: the UTF-8 bytes of a string *)
  crypto_box_seal : bytes -> bytes -> W -> result bytes * W;
  to_base64 : bytes -> string;
      (* sodium.to_base64(_, base64_variants.ORIGINAL) *)
  get_public_key : string -> string -> W -> result PublicKey * W;
  put_secret : string -> string -> string -> string -> string -> W -> result unit * W
}.

(** *** The monad of the service: outside state, log of requests, errors *)

Section Monad.
Context {W : Type}.

Definition store : Type := W * list request.

Definition M (A : Type) : Type := store -> result A * store.

Definition ret {A} (a : A) : M A := fun st => (Ok a, st).

Definition throw {A} (e : exn) : M A := fun st => (Err e, st).

Definition bind {A B} (m : M A) (f : A -> M B) : M B :=
  fun st =>
    match m st with
    | (Ok a, st') => f a st'
    | (Err e, st') => (Err e, st')
    end.

(** [try { body } catch (error) { handler(error) }] *)
Definition try_catch {A} (body : M A) (handler : exn -> M A) : M A :=
  fun st =>
    match body st with
    | (Ok a, st') => (Ok a, st')
    | (Err e, st') => handler e st'
    end.

(** A call that may throw and touches nothing outside. *)
Definition lift {A} (r : result A) : M A := fun st => (r, st).

(** A call that changes the outside state without issuing a request. *)
Definition effect {A} (f : W -> result A * W) : M A :=
  fun st => let '(r, w') := f (fst st) in (r, (w', snd st)).

(** [await this.octokit.request(...)]: the request is logged, then
    answered. *)
Definition send {A} (rq : request) (f : W -> result A * W) : M A :=
  fun st => let '(r, w') := f (fst st) in (r, (w', snd st ++ [rq])).

End Monad.

Declare Scope service_scope.
Delimit Scope service_scope with service.
Notation "x <- m ;; k" := (bind m (fun x => k))
  (at level 61, m at next level, right associativity) : service_scope.

Section Service.
Context {W : Type} (P : Platform W).
Local Open Scope service_scope.

Definition getRepoPublicKey (owner repo : string) : M PublicKey :=
  send (GetPublicKey owner repo) (get_public_key P owner repo).

(** [await sodium.ready] is a barrier that has no result and is not
    modelled; the four library calls follow in the order of the source. *)
Definition encryptSecret (secretValue publicKey : string) : M string :=
  binkey <- lift (from_base64 P publicKey) ;;
  let binsec := from_string P secretValue in
  encBytes <- effect (crypto_box_seal P binsec binkey) ;;
  ret (to_base64 P encBytes).

Definition createOrUpdateRepoSecret
           (owner repo secretName secretValue : string) : M unit :=
  publicKeyData <- getRepoPublicKey owner repo ;;
  encryptedValue <- encryptSecret secretValue (key publicKeyData) ;;
  send (PutSecret owner repo secretName encryptedValue (key_id publicKeyData))
       (put_secret P owner repo secretName encryptedValue (key_id publicKeyData)).

(** The result object [{ success, failed }]. *)
Record BatchResult : Type := {
  success : list string;
  failed : list (string * string)   (* { name, error } *)
}.

(** The body of the [for] loop of [batchCreateSecrets] for one entry. *)
Definition batch_step (owner repo : string) (acc : BatchResult)
           (entry : string * string) : M BatchResult :=
  let '(name, value) := entry in
  try_catch
    (_ <- createOrUpdateRepoSecret owner repo name value ;;
     ret {| success := success acc ++ [name]; failed := failed acc |})
    (fun e =>
       ret {| success := success acc;
              failed := failed acc ++ [(name, error_text e)] |}).

Fixpoint batch_loop (owner repo : string) (entries : list (string * string))
         (acc : BatchResult) : M BatchResult :=
  match entries with
  | [] => ret acc
  | entry :: rest =>
      acc' <- batch_step owner repo acc entry ;;
      batch_loop owner repo rest acc'
  end.

(** [for (const [name, value] of Object.entries(secrets))] *)
Definition batchCreateSecrets (owner repo : string) (secrets : record)
  : M BatchResult :=
  batch_loop owner repo secrets {| success := []; failed := [] |}.

(** *** The sealing transform in the words of the specification:
    decode the key from base64, take the UTF-8 bytes of the secret, seal
    them under the key, encode the sealed bytes as base64. *)
Definition encrypt_spec (plaintext publicKeyBase64 : string) (w : W)
  : result string * W :=
  match from_base64 P publicKeyBase64 with
  | Err e => (Err e, w)
  | Ok recipient =>
      match crypto_box_seal P (from_string P plaintext) recipient w with
      | (Ok sealed, w') => (Ok (to_base64 P sealed), w')
      | (Err e, w') => (Err e, w')
      end
  end.

(** The outcome of the pipeline for each entry, in order, the outside
    state being handed from one entry to the next. *)
Fixpoint outcomes (owner repo : string) (entries : list (string * string))
         (st : store) : list (result unit) * store :=
  match entries with
  | [] => ([], st)
  | (name, value) :: rest =>
      let '(r, st1) := createOrUpdateRepoSecret owner repo name value st in
      let '(rs, st2) := outcomes owner repo rest st1 in
      (r :: rs, st2)
  end.

End Service.

(** The same platform with another sealing function. *)
Definition with_seal {W} (P : Platform W)
           (seal : bytes -> bytes -> W -> result bytes * W) : Platform W :=
  {| from_base64 := from_base64 P;
     from_string := from_string P;
     crypto_box_seal := seal;
     to_base64 := to_base64 P;
     get_public_key := get_public_key P;
     put_secret := put_secret P |}.

(** Names of the entries whose outcome is a success. *)
Fixpoint succeeded (names : list string) (rs : list (result unit)) : list string :=
  match names, rs with
  | n :: names', Ok _ :: rs' => n :: succeeded names' rs'
  | _ :: names', Err _ :: rs' => succeeded names' rs'
  | _, _ => []
  end.

(** Names and messages of the entries whose outcome is a failure. *)
Fixpoint rejected (names : list string) (rs : list (result unit))
  : list (string * string) :=
  match names, rs with
  | _ :: names', Ok _ :: rs' => rejected names' rs'
  | n :: names', Err e :: rs' => (n, error_text e) :: rejected names' rs'
  | _, _ => []
  end.

Definition is_get (rq : request) : bool :=
  match rq with GetPublicKey _ _ => true | PutSecret _ _ _ _ _ => false end.

End GitHub.

(** ** A platform to run the service on

    Base64 with the standard alphabet and padding, written out; a toy
    sealing function and a scripted server.  The sealing function is not
    libsodium's: it only keeps what the examples need (a recipient key of
    32 bytes is demanded, and the output depends on the outside state, as
    a fresh ephemeral key makes it). *)

Module Reference.
Import GitHub.

Definition alphabet : list ascii :=
  list_ascii_of_string
    "ABCDEFGHIJKLMNOPQRSTUVWXYZabcdefghijklmnopqrstuvwxyz0123456789+/".

Definition pad : ascii := "="%char.

Definition sextet_char (n : N) : ascii :=
  nth (N.to_nat n) alphabet pad.

Fixpoint index_of (c : ascii) (l : list ascii) (i : N) : option N :=
  match l with
  | [] => None
  | x :: l' => if Ascii.eqb c x then Some i else index_of c l' (N.succ i)
  end.

Definition char_sextet (c : ascii) : option N := index_of c alphabet 0%N.

Definition byte_of_N (n : N) : byte :=
  match Byte.of_N n with Some b => b | None => x00 end.

Fixpoint encode (bs : bytes) : list ascii :=
  match bs with
  | [] => []
  | [a] =>
      let a := Byte.to_N a in
      [sextet_char (a / 4); sextet_char ((a mod 4) * 16); pad; pad]
  | [a; b] =>
      let a := Byte.to_N a in
      let b := Byte.to_N b in
      [sextet_char (a / 4); sextet_char ((a mod 4) * 16 + b / 16);
       sextet_char ((b mod 16) * 4); pad]
  | a :: b :: c :: rest =>
      let a := Byte.to_N a in
      let b := Byte.to_N b in
      let c := Byte.to_N c in
      sextet_char (a / 4) :: sextet_char ((a mod 4) * 16 + b / 16)
        :: sextet_char ((b mod 16) * 4 + c / 64) :: sextet_char (c mod 64)
        :: encode rest
  end%N.

Definition quantum (p q : N) : byte := byte_of_N ((p * 4 + q / 16) mod 256)%N.

Fixpoint decode (cs : list ascii) : option bytes :=
  match cs with
  | [] => Some []
  | c1 :: c2 :: c3 :: c4 :: rest =>
      match char_sextet c1, char_sextet c2 with
      | Some p, Some q =>
          if Ascii.eqb c4 pad then
            match rest with
            | [] =>
                if Ascii.eqb c3 pad then
                  if (q mod 16 =? 0)%N then Some [quantum p q] else None
                else
                  match char_sextet c3 with
                  | Some r =>
                      if (r mod 4 =? 0)%N
                      then Some [quantum p q;
                                 byte_of_N (((q mod 16) * 16 + r / 4) mod 256)%N]
                      else None
                  | None => None
                  end
            | _ :: _ => None
            end
          else
            match char_sextet c3, char_sextet c4, decode rest with
            | Some r, Some s, Some tail =>
                Some (quantum p q
                        :: byte_of_N (((q mod 16) * 16 + r / 4) mod 256)%N
                        :: byte_of_N (((r mod 4) * 64 + s) mod 256)%N
                        :: tail)
            | _, _, _ => None
            end
      | _, _ => None
      end
  | _ => None
  end.

Definition ref_from_base64 (s : string) : result bytes :=
  match decode (list_ascii_of_string s) with
  | Some bs => Ok bs
  | None => Err (JsError "invalid input")
  end.

Definition ref_to_base64 (bs : bytes) : string :=
  string_of_list_ascii (encode bs).

Definition ref_from_string (s : string) : bytes := list_byte_of_string s.

(** The outside state: how many ephemeral keys have been drawn. *)
Definition world : Type := N.

Definition toy_seal (msg recipient : bytes) (w : world) : result bytes * world :=
  if (List.length recipient =? 32)%nat
  then (Ok (byte_of_N (w mod 256)%N :: rev msg), N.succ w)
  else (Err (JsError "invalid publicKey length"), w).

(** 32 bytes, in base64. *)
Definition demo_key : string := "QUJDREVGR0hJSktMTU5PUFFSU1RVVldYWVowMTIzNDU=".

(** The scripted server: the repository [gone] does not exist, the secret
    [LOCKED] cannot be written, the repository [badkey] hands out a key
    that is not base64. *)
Definition ref_get_public_key (owner repo : string) (w : world)
  : result PublicKey * world :=
  if repo =? "gone" then (Err (JsError "Not Found"), w)
  else if repo =? "badkey" then (Ok {| key_id := "2"; key := "not base64!" |}, w)
  else (Ok {| key_id := "1"; key := demo_key |}, w).

Definition ref_put_secret (owner repo secret_name encrypted_value key_id : string)
           (w : world) : result unit * world :=
  if secret_name =? "LOCKED" then (Err (JsError "Forbidden"), w) else (Ok tt, w).

Definition platform : Platform world := {|
  from_base64 := ref_from_base64;
  from_string := ref_from_string;
  crypto_box_seal := toy_seal;
  to_base64 := ref_to_base64;
  get_public_key := ref_get_public_key;
  put_secret := ref_put_secret
|}.

(** A record to upload. *)
Definition demo_secrets : record :=
  [("API_KEY", "abc"); ("LOCKED", "def"); ("DB_URL", "ghi")].

End Reference.

(** ** env-parser.ts: reading a .env file

    A string is the sequence of its code units; the type [string] holds
    the code units below 256, and the statements range over those. *)

Module EnvFile.
Import Regex EnvParser.

Definition chars : Type := list ascii.

Definition LF : ascii := "010"%char.
Definition CR : ascii := "013"%char.
Definition DQUOTE : ascii := "034"%char.   (* the double quote *)
Definition QUOTE : ascii := "039"%char.    (* the single quote *)

(** The code units below 256 that [trim] removes and [\s] matches: TAB,
    LF, VT, FF, CR, space and the no-break space. *)
Definition white_space : list (ascii * ascii) :=
  [("009"%char, "013"%char); (" "%char, " "%char); ("160"%char, "160"%char)].

(** The code units below 256 that [.] matches: all but LF and CR. *)
Definition not_line_terminator : list (ascii * ascii) :=
  [("000"%char, "009"%char); ("011"%char, "012"%char); ("014"%char, "255"%char)].

Definition is_space (c : ascii) : bool := in_class white_space c.

Fixpoint trim_start (s : chars) : chars :=
  match s with
  | [] => []
  | c :: s' => if is_space c then trim_start s' else s
  end.

(** [s.trim()] *)
Definition trim (s : chars) : chars := rev (trim_start (rev (trim_start s))).

(** [s.split("\n")] *)
Fixpoint split_lines (s : chars) : list chars :=
  match s with
  | [] => [[]]
  | c :: s' =>
      if Ascii.eqb c LF then [] :: split_lines s'
      else match split_lines s' with
           | line :: lines => (c :: line) :: lines
           | [] => [[c]]
           end
  end.

(** [s.startsWith(c)] and [s.endsWith(c)] for a string [c] of one
    character. *)
Definition starts_with (c : ascii) (s : chars) : bool :=
  match s with
  | [] => false
  | x :: _ => Ascii.eqb x c
  end.

Definition ends_with (c : ascii) (s : chars) : bool := starts_with c (rev s).

(** [s.slice(1, -1)] *)
Definition slice_1_m1 (s : chars) : chars := removelast (tl s).

(** *** Matching with capture groups

    The matcher of [Regex], with a result: what the continuation returns
    on the first path that succeeds, alternatives being tried in the order
    of a backtracking matcher. *)

Section Exec.
Context {A : Type}.

Definition econt : Type := nat -> chars -> option A.

Fixpoint star_exec (m : nat -> chars -> econt -> option A) (k : econt)
         (fuel i : nat) (s : chars) : option A :=
  match fuel with
  | O => k i s
  | S fuel' =>
      match m i s (fun i' s' =>
                     if (i <? i')%nat then star_exec m k fuel' i' s' else None) with
      | Some a => Some a
      | None => k i s
      end
  end.

Fixpoint exec (r : regex) (i : nat) (s : chars) (k : econt) : option A :=
  match r with
  | Bol => if (i =? 0)%nat then k i s else None
  | Eol => match s with [] => k i s | _ :: _ => None end
  | Lit l =>
      match strip l s with
      | Some s' => k (i + List.length l)%nat s'
      | None => None
      end
  | Class ranges =>
      match s with
      | c :: s' => if in_class ranges c then k (S i) s' else None
      | [] => None
      end
  | Seq a b => exec a i s (fun i' s' => exec b i' s' k)
  | Star a => star_exec (exec a) k (List.length s) i s
  | NegLookahead a => if rmatch a i s accept then None else k i s
  end.

End Exec.

(** A pattern as the sequence of its parts, a part being a capture group
    or not. *)
Inductive part : Type :=
| Plain (r : regex)
| Capture (r : regex).

(** The texts of the groups, in order, on the first successful path. *)
Fixpoint exec_parts (p : list part) (i : nat) (s : chars) (caps : list chars)
  : option (list chars) :=
  match p with
  | [] => Some caps
  | Plain r :: p' => exec r i s (fun i' s' => exec_parts p' i' s' caps)
  | Capture r :: p' =>
      exec r i s (fun i' s' => exec_parts p' i' s' (caps ++ [firstn (i' - i) s]))
  end.

Fixpoint match_from (p : list part) (i : nat) (s : chars) : option (list chars) :=
  match exec_parts p i s [] with
  | Some caps => Some caps
  | None =>
      match s with
      | [] => None
      | _ :: s' => match_from p (S i) s'
      end
  end.

(** [s.match(pattern)] for a pattern without the g flag: [null], or the
    texts of the groups. *)
Definition str_match (p : list part) (s : chars) : option (list chars) :=
  match_from p 0 s.

(** The pattern of [trimmed.match]: from the start, group 1 is
    [[A-Za-z_][A-Za-z0-9_]*]; then [\s*], the equals sign and [\s*]; group 2
    is [.*], up to the end [$]. *)
Definition line_pattern : list part :=
  [Plain Bol;
   Capture (Seq (Class [upper; lower; underscore])
                (Star (Class [upper; lower; digit; underscore])));
   Plain (Star (Class white_space));
   Plain (Lit ["="%char]);
   Plain (Star (Class white_space));
   Capture (Star (Class not_line_terminator));
   Plain Eol].

(** The removal of quotes: [cleanValue] after the [if]. *)
Definition strip_quotes (cleanValue : chars) : chars :=
  if (starts_with DQUOTE cleanValue && ends_with DQUOTE cleanValue)
     || (starts_with QUOTE cleanValue && ends_with QUOTE cleanValue)
  then slice_1_m1 cleanValue
  else cleanValue.

(** The body of the [for] loop of [parseEnvFile] for one line. *)
Definition parse_line (secrets : record) (line : chars) : record :=
  let trimmed := trim line in
  match trimmed with
  | [] => secrets
  | _ :: _ =>
      if starts_with "#"%char trimmed then secrets
      else
        match str_match line_pattern trimmed with
        | Some [key; value] =>
            assign secrets (string_of_list_ascii key)
                   (string_of_list_ascii (strip_quotes (trim value)))
        | _ => secrets
        end
  end.

Definition parseEnvFile (content : string) : record :=
  fold_left parse_line (split_lines (list_ascii_of_string content)) [].

(** [readEnvFile(filePath)], [readFileSync] being given: the content of
    the file as a string, or the error thrown. *)
Definition readEnvFile (readFileSync : string -> result string)
           (filePath : string) : result record :=
  match readFileSync filePath with
  | Ok content => Ok (parseEnvFile content)
  | Err e => Err e
  end.

(** *** Words to state properties with *)

Definition newline : string := String LF EmptyString.

Definition all_space (s : string) : bool :=
  forallb is_space (list_ascii_of_string s).

(** White space that does not end the line. *)
Definition inline_space (s : string) : bool :=
  forallb (fun c => is_space c && negb (Ascii.eqb c LF)) (list_ascii_of_string s).

(** The same text with the line ending CR LF for every LF. *)
Fixpoint crlf (s : string) : string :=
  match s with
  | EmptyString => EmptyString
  | String c s' =>
      if Ascii.eqb c LF then String CR (String LF (crlf s')) else String c (crlf s')
  end.

(** A line whose first character after white space, if there is one,
    cannot start a name: a blank line, a comment, [1BAD=3]. *)
Definition no_name_at_start (line : string) : bool :=
  match trim_start (list_ascii_of_string line) with
  | [] => true
  | c :: _ => negb (name_start c)
  end.

(** No LF in it. *)
Definition one_line (s : string) : bool :=
  forallb (fun c => negb (Ascii.eqb c LF)) (list_ascii_of_string s).

(** Neither LF nor CR in it. *)
Definition no_line_terminator (s : string) : bool :=
  forallb (in_class not_line_terminator) (list_ascii_of_string s).

(** Nothing for [trim] to remove. *)
Definition tight (s : string) : bool :=
  match list_ascii_of_string s with
  | [] => true
  | c :: _ =>
      negb (is_space c)
      && negb (is_space (last (list_ascii_of_string s) c))
  end.

Definition unquoted (s : string) : string :=
  string_of_list_ascii (strip_quotes (list_ascii_of_string s)).

(** What holds of every record read from a file: the names are pairwise
    distinct, each is an identifier, none is [__proto__]. *)
Definition parsed (o : record) : Prop :=
  well_formed o
  /\ forallb identifier_shape (keys o) = true
  /\ existsb (String.eqb "__proto__") (keys o) = false.

(** One line [KEY=VALUE] per entry. *)
Definition render_entry (e : string * string) : string :=
  (fst e ++ "=" ++ snd e)%string.

Definition render (o : record) : string :=
  String.concat newline (map render_entry o).

(** A value that is written as it is: nothing to trim, on one line, and
    not between quotes. *)
Definition plain_value (v : string) : bool :=
  tight v && no_line_terminator v && (unquoted v =? v).

Definition plain_entry (e : string * string) : bool :=
  identifier_shape (fst e) && negb (fst e =? "__proto__") && plain_value (snd e).

End EnvFile.

(** ** github.ts: reading a log of requests *)

Module GitHubLog.
Import GitHub.

(** The names of the secrets the PUT requests of a log carry, in order. *)
Fixpoint put_names (log : list request) : list string :=
  match log with
  | [] => []
  | PutSecret _ _ secret_name _ _ :: rest => secret_name :: put_names rest
  | GetPublicKey _ _ :: rest => put_names rest
  end.

(** Every PUT request of the log comes right after a request for the key
    of the same repository. *)
Fixpoint paired (log : list request) : bool :=
  match log with
  | [] => true
  | GetPublicKey owner repo :: rest =>
      match rest with
      | PutSecret owner' repo' _ _ _ :: rest' =>
          (owner =? owner') && (repo =? repo') && paired rest'
      | _ => paired rest
      end
  | PutSecret _ _ _ _ _ :: _ => false
  end.

(** What a run added to the log it started with. *)
Definition added {W} (before after : @store W) : list request :=
  skipn (List.length (snd before)) (snd after).

End GitHubLog.

(** ** cli.ts: adding one secret, uploading a file *)

Module Cli.
Import Regex EnvParser EnvFile GitHub.

(** What the [validate] callback of a prompt returns: [true], or the
    message shown. *)
Inductive validation : Type :=
| Accepted
| Refused (message : string).

(** [/^[A-Za-z_][A-Za-z0-9_]*$/] *)
Definition name_pattern : regex :=
  Seq Bol
    (Seq (Class [upper; lower; underscore])
       (Seq (Star (Class [upper; lower; digit; underscore]))
          Eol)).

(** The [validate] callback of the name prompt of [addSingleSecret]. *)
Definition validate_name (value : string) : validation :=
  if value =? "" then
    Refused "Secret name is required"
  else if negb (test name_pattern value) then
    Refused "Invalid name. Use only letters, numbers, and underscores. Cannot start with a number."
  else if String.prefix "GITHUB_" value then
    Refused "Secret names cannot start with GITHUB_"
  else
    Accepted.

Definition is_accepted (v : validation) : bool :=
  match v with Accepted => true | Refused _ => false end.

(** [uploadSecretsFromFile(owner, repo)]: the requests it issues and the
    result it reports when the upload ran, printing left out.  What the
    user and the file system answer is given: [filePath] and
    [confirmUpload] are the outcomes of the two prompts (a prompt that is
    interrupted throws), [readFileSync] reads a file.  Every error ends
    in one of the two [catch] blocks. *)
Definition uploadSecretsFromFile {W : Type} (P : Platform W)
           (readFileSync : string -> result string)
           (owner repo : string)
           (filePath : result string) (confirmUpload : result bool)
  : M (option BatchResult) :=
  match filePath with
  | Err _ => ret None
  | Ok path =>
      match readEnvFile readFileSync path with
      | Err _ => ret None
      | Ok secrets =>
          if (List.length (keys secrets) =? 0)%nat then ret None
          else
            let '(valid, invalid) := filterValidSecrets secrets in
            if (List.length (keys valid) =? 0)%nat then ret None
            else
              match confirmUpload with
              | Err _ => ret None
              | Ok false => ret None
              | Ok true =>
                  bind (batchCreateSecrets P owner repo valid)
                       (fun result => ret (Some result))
              end
      end
  end.

End Cli.

(* ===================================================================== *)
(** * Part II: properties                                                 *)
(* ===================================================================== *)

(** ** Secret names *)

Module EnvParserFacts.
Import Regex EnvParser.

Lemma search_anchored (r : regex) (s : list ascii) (i : nat) :
  search (Seq Bol r) (S i) s = false.
Proof.
  revert i; induction s as [|c s IH]; intros i; simpl; try reflexivity.
  apply IH.
Qed.

Lemma test_anchored (r : regex) (name : string) :
  test (Seq Bol r) name = rmatch r 0 (list_ascii_of_string name) accept.
Proof.
  unfold test.
  destruct (list_ascii_of_string name) as [|c s]; simpl.
  - apply orb_false_r.
  - rewrite search_anchored. apply orb_false_r.
Qed.

Lemma strip_prefix (p name : string) :
  match strip (list_ascii_of_string p) (list_ascii_of_string name) with
  | Some _ => true
  | None => false
  end = String.prefix p name.
Proof.
  revert name; induction p as [|x p IH]; intros name; simpl.
  - destruct name; reflexivity.
  - destruct name as [|c name]; simpl; try reflexivity.
    rewrite Ascii.eqb_sym.
    destruct (Ascii.eqb_spec c x) as [->|Hne].
    + destruct (ascii_dec x x) as [_|Hxx]; [apply IH | congruence].
    + destruct (ascii_dec x c) as [Heq|_]; [congruence | reflexivity].
Qed.

(** A starred character class followed by the end of the input accepts
    exactly the inputs made of characters of the class. *)
Lemma star_class_to_end (ranges : list (ascii * ascii)) (k : cont) :
  (forall i, k i [] = true) ->
  (forall i c s, k i (c :: s) = false) ->
  forall fuel s i,
    (List.length s <= fuel)%nat ->
    star_loop (rmatch (Class ranges)) k fuel i s = forallb (in_class ranges) s.
Proof.
  intros Hnil Hcons.
  induction fuel as [|fuel IH]; intros s i Hlen.
  - destruct s; simpl in *; [apply Hnil | lia].
  - destruct s as [|c s]; simpl in *.
    + apply Hnil.
    + rewrite Hcons, orb_false_r.
      replace (i <? S i)%nat with true by (symmetry; apply Nat.ltb_lt; lia).
      simpl. rewrite IH by lia. reflexivity.
Qed.

Lemma validateSecretName_unfold (name : string) :
  validateSecretName name = isValidName_spec name.
Proof.
  unfold validateSecretName, pattern, isValidName_spec.
  rewrite test_anchored.
  unfold identifier_shape, reserved_prefix.
  rewrite <- strip_prefix.
  cbn [rmatch].
  destruct (strip (list_ascii_of_string "GITHUB_") (list_ascii_of_string name))
    as [tail|] eqn:Hstrip.
  - simpl. rewrite andb_false_r. reflexivity.
  - simpl negb. rewrite andb_true_l, andb_true_r.
    destruct (list_ascii_of_string name) as [|c rest]; [reflexivity|].
    unfold name_start. f_equal.
    apply star_class_to_end; auto.
Qed.

(** C8. [validateSecretName] is a total function to [bool] that answers
    true exactly for the names that match [^[A-Za-z_][A-Za-z0-9_]*$] and do
    not start with the case-sensitive prefix [GITHUB_]; it answers false
    for [GITHUB_FOO], [1ABC] and [bad-name]. *)
Theorem validateSecretName_iff_identifier_not_reserved :
  (forall name : string,
      validateSecretName name
      = identifier_shape name && negb (reserved_prefix name))
  /\ validateSecretName "GITHUB_FOO" = false
  /\ validateSecretName "1ABC" = false
  /\ validateSecretName "bad-name" = false.
Proof.
  split; [exact validateSecretName_unfold | repeat split; reflexivity].
Qed.

(** *** [filterValidSecrets] *)

Lemma define_property_fresh (o : record) (k v : string) :
  ~ In k (keys o) -> define_property o k v = o ++ [(k, v)].
Proof.
  induction o as [|[k' v'] o IH]; simpl; intros Hfresh; [reflexivity|].
  destruct (String.eqb_spec k k') as [->|Hne].
  - exfalso. apply Hfresh. now left.
  - rewrite IH; [reflexivity|]. intros Hin. apply Hfresh. now right.
Qed.

Lemma keys_app (o1 o2 : record) : keys (o1 ++ o2) = keys o1 ++ keys o2.
Proof. apply map_app. Qed.

Lemma keys_filter_incl (f : string * string -> bool) (o : record) (k : string) :
  In k (keys (filter f o)) -> In k (keys o).
Proof.
  unfold keys. rewrite !in_map_iff.
  intros [e [He Hin]]. exists e. split; [assumption|].
  apply filter_In in Hin. tauto.
Qed.

(** The loop, started from any accumulators whose names do not occur among
    the entries still to be read. *)
Lemma filter_loop (secrets : record) :
  well_formed secrets ->
  ~ In "__proto__" (keys secrets) ->
  forall valid invalid,
    (forall k, In k (keys valid) -> ~ In k (keys secrets)) ->
    fold_left filter_step secrets (valid, invalid)
    = (valid ++ fst (partition_spec secrets),
       invalid ++ snd (partition_spec secrets)).
Proof.
  unfold well_formed, partition_spec.
  induction secrets as [|[name value] rest IH]; simpl;
    intros Hnd Hproto valid invalid Hdisj.
  - now rewrite !app_nil_r.
  - inversion Hnd as [|? ? Hnotin Hnd']; subst.
    change (valid_entry (name, value)) with (validateSecretName name).
    destruct (validateSecretName name) eqn:Hv; simpl.
    + unfold assign.
      destruct (String.eqb_spec name "__proto__") as [->|_];
        [exfalso; apply Hproto; now left|].
      rewrite define_property_fresh by (intros Hin; apply (Hdisj _ Hin); now left).
      rewrite IH; try assumption.
      * simpl. now rewrite <- app_assoc.
      * intros Hin. apply Hproto. now right.
      * intros k Hin. rewrite keys_app in Hin. apply in_app_or in Hin.
        destruct Hin as [Hin|[<-|[]]]; [|assumption].
        intros Hin'. apply (Hdisj _ Hin). now right.
    + rewrite IH; try assumption.
      * simpl. now rewrite <- app_assoc.
      * intros Hin. apply Hproto. now right.
      * intros k Hin Hin'. apply (Hdisj _ Hin). now right.
Qed.

(** For a record that has no own property named [__proto__],
    [filterValidSecrets] is the partition of the specification: valid
    entries with their values, invalid names, both in input order. *)
Lemma filterValidSecrets_partition (secrets : record) :
  well_formed secrets ->
  ~ In "__proto__" (keys secrets) ->
  filterValidSecrets secrets = partition_spec secrets.
Proof.
  intros Hwf Hproto. unfold filterValidSecrets.
  rewrite filter_loop; auto.
Qed.

(** Under the same conditions every name of the input is in exactly one
    of the two results. *)
Lemma filterValidSecrets_exactly_one (secrets : record) (name : string) :
  well_formed secrets ->
  ~ In "__proto__" (keys secrets) ->
  In name (keys secrets) ->
  let '(valid, invalid) := filterValidSecrets secrets in
  (In name (keys valid) /\ ~ In name invalid)
  \/ (~ In name (keys valid) /\ In name invalid).
Proof.
  intros Hwf Hproto Hin.
  rewrite filterValidSecrets_partition by assumption.
  unfold partition_spec, keys in *.
  assert (Hsplit : forall f, In name (map fst (filter f secrets)) ->
                        exists v, In (name, v) secrets /\ f (name, v) = true).
  { intros f H. apply in_map_iff in H. destruct H as [[n v] [Hn H]].
    simpl in Hn; subst n. apply filter_In in H. exists v. exact H. }
  destruct (validateSecretName name) eqn:Hv; [left | right]; split.
  - apply in_map_iff in Hin. destruct Hin as [[n v] [Hn Hin]]. simpl in Hn; subst n.
    apply in_map_iff. exists (name, v). split; [reflexivity|].
    apply filter_In. split; [assumption | exact Hv].
  - intros H. apply Hsplit in H. destruct H as [v [_ H]].
    unfold valid_entry in H. simpl in H. rewrite Hv in H. discriminate.
  - intros H. apply Hsplit in H. destruct H as [v [_ H]].
    unfold valid_entry in H. simpl in H. rewrite Hv in H. discriminate.
  - apply in_map_iff in Hin. destruct Hin as [[n v] [Hn Hin]]. simpl in Hn; subst n.
    apply in_map_iff. exists (name, v). split; [reflexivity|].
    apply filter_In. split; [assumption|].
    unfold valid_entry. simpl. now rewrite Hv.
Qed.

(** The example of the specification. *)
Example filterValidSecrets_example :
  filterValidSecrets [("GOOD", "1"); ("GITHUB_BAD", "2"); ("1BAD", "3")]
  = ([("GOOD", "1")], ["GITHUB_BAD"; "1BAD"]).
Proof. reflexivity. Qed.

(** C9. The entry named [__proto__] of a record has a valid name and is
    in neither result of [filterValidSecrets]: the assignment
    [valid[name] = value] goes to the inherited accessor and stores
    nothing, so the entry is dropped where the claim has it listed as
    valid with its value. *)
Theorem filterValidSecrets_drops_proto_entry :
  validateSecretName "__proto__" = true
  /\ well_formed [("GOOD", "1"); ("__proto__", "x"); ("1BAD", "3")]
  /\ filterValidSecrets [("GOOD", "1"); ("__proto__", "x"); ("1BAD", "3")]
     = ([("GOOD", "1")], ["1BAD"])
  /\ partition_spec [("GOOD", "1"); ("__proto__", "x"); ("1BAD", "3")]
     = ([("GOOD", "1"); ("__proto__", "x")], ["1BAD"]).
Proof.
  repeat split.
  unfold well_formed; simpl.
  repeat constructor; simpl; intuition discriminate.
Qed.

End EnvParserFacts.

(** ** Polling the token endpoint *)

Module OAuthFacts.
Import OAuth.

Section Attempt.
Variables (this : OAuthConfig) (deviceCode : string) (interval : Z).

Lemma requests_app (e1 e2 : list event) :
  requests (e1 ++ e2) = (requests e1 + requests e2)%nat.
Proof. unfold requests. now rewrite filter_app, length_app. Qed.

Lemma waits_app (e1 e2 : list event) : waits (e1 ++ e2) = waits e1 ++ waits e2.
Proof.
  induction e1 as [|[url c d g|ms] e1 IH]; simpl;
    [reflexivity | exact IH | now f_equal].
Qed.

(** Answers that keep the attempt polling are gone through one by one;
    the attempt then goes on with the answers that follow. *)
Lemma poll_through (before later : list (result TokenData)) :
  forallb (keeps_polling interval) before = true ->
  pollForAccessToken this deviceCode interval (before ++ later)
  = (polling_events this deviceCode interval before
       ++ fst (pollForAccessToken this deviceCode interval later),
     snd (pollForAccessToken this deviceCode interval later)).
Proof.
  induction before as [|a before IH]; simpl; intros Hkeep.
  - now destruct (pollForAccessToken this deviceCode interval later).
  - apply andb_prop in Hkeep. destruct Hkeep as [Ha Hkeep].
    unfold keeps_polling in Ha.
    destruct (poll_once interval a) as [ms| |]; try discriminate.
    rewrite (IH Hkeep). reflexivity.
Qed.

Lemma through_counts (before : list (result TokenData)) :
  forallb (keeps_polling interval) before = true ->
  requests (polling_events this deviceCode interval before) = List.length before
  /\ List.length (waits (polling_events this deviceCode interval before))
     = List.length before.
Proof.
  induction before as [|a before IH]; simpl; intros Hkeep; [split; reflexivity|].
  apply andb_prop in Hkeep. destruct Hkeep as [Ha Hkeep].
  unfold keeps_polling in Ha.
  destruct (poll_once interval a) as [ms| |]; try discriminate.
  destruct (IH Hkeep) as [IHr IHw].
  unfold requests in *. simpl. now rewrite IHr, IHw.
Qed.

(** An answer that makes [poll] reject ends the attempt wherever it comes:
    one request per answer received, every timer already followed by its
    request, and nothing of what the endpoint would have answered later
    is asked for. *)
Lemma rejection_ends_attempt (before later : list (result TokenData))
      (answer : result TokenData) (e : exn) :
  forallb (keeps_polling interval) before = true ->
  poll_once interval answer = Reject e ->
  pollForAccessToken this deviceCode interval (before ++ answer :: later)
  = (polling_events this deviceCode interval before
       ++ [token_request this deviceCode],
     Rejected e).
Proof.
  intros Hkeep Hrej. rewrite poll_through by assumption.
  simpl. now rewrite Hrej.
Qed.

(** The wait after an answer depends on that answer alone. *)
Lemma wait_after_pending :
  poll_once interval (error_answer "authorization_pending")
  = Schedule (interval * 1000).
Proof. reflexivity. Qed.

Lemma wait_after_slow_down :
  poll_once interval (error_answer "slow_down")
  = Schedule ((interval + 5) * 1000).
Proof. reflexivity. Qed.

(** Whatever was answered before, [slow_down] included, the wait after
    [authorization_pending] is the [interval] the attempt was started
    with. *)
Lemma pending_wait_ignores_history (before later : list (result TokenData)) :
  forallb (keeps_polling interval) before = true ->
  waits (fst (pollForAccessToken this deviceCode interval
                (before ++ error_answer "authorization_pending" :: later)))
  = waits (polling_events this deviceCode interval before)
      ++ (interval * 1000)%Z
      :: waits (fst (pollForAccessToken this deviceCode interval later)).
Proof.
  intros Hkeep. rewrite poll_through by assumption.
  cbn [fst]. rewrite waits_app. f_equal.
  cbn [pollForAccessToken]. rewrite wait_after_pending.
  now destruct (pollForAccessToken this deviceCode interval later).
Qed.

(** The scenario of the specification: pending, slow down, token. *)
Lemma pending_slow_down_token :
  let attempt :=
    pollForAccessToken this deviceCode interval
      [error_answer "authorization_pending"; error_answer "slow_down";
       token_answer "tok" "repo"] in
  waits (fst attempt) = [interval * 1000; (interval + 5) * 1000]%Z
  /\ exists data, snd attempt = Resolved data /\ access_token data = Some "tok".
Proof.
  simpl. split; [reflexivity|]. eexists; split; reflexivity.
Qed.

(** C2. After [slow_down] the next wait lasts [interval + 5] seconds, but
    the increase is not kept: a later [authorization_pending] is followed
    by a wait of [interval] seconds again, where the backoff rule of the
    claim asks for [interval + 5]. *)
Theorem slow_down_increase_is_not_kept :
  let attempt :=
    pollForAccessToken this deviceCode interval
      [error_answer "slow_down"; error_answer "authorization_pending";
       token_answer "tok" "repo"] in
  waits (fst attempt) = [(interval + 5) * 1000; interval * 1000]%Z
  /\ waits_spec interval ["slow_down"; "authorization_pending"]
     = [(interval + 5) * 1000; (interval + 5) * 1000]%Z
  /\ waits (fst attempt)
     <> waits_spec interval ["slow_down"; "authorization_pending"].
Proof.
  simpl. repeat split.
  intros Heq. injection Heq as Heq. lia.
Qed.

(** C3. An answer whose error code is non-empty and neither
    [authorization_pending] nor [slow_down] ends the attempt, wherever it
    comes in it: the promise is rejected with the message for
    [expired_token], for [access_denied], or with the raw code for any
    other code; one request was sent per answer received and no timer is
    left that would send another. *)
Theorem terminal_error_ends_attempt
        (before later : list (result TokenData)) (data : TokenData) :
  forallb (keeps_polling interval) before = true ->
  truthy (error data) = true ->
  strict_eq (error data) "authorization_pending" = false ->
  strict_eq (error data) "slow_down" = false ->
  let attempt :=
    pollForAccessToken this deviceCode interval (before ++ Ok data :: later) in
  snd attempt = Rejected (JsError (terminal_message (error data)))
  /\ fst attempt
     = polling_events this deviceCode interval before
         ++ [token_request this deviceCode]
  /\ requests (fst attempt) = S (List.length before)
  /\ List.length (waits (fst attempt)) = List.length before.
Proof.
  intros Hkeep Herr Hpending Hslow attempt.
  assert (Hrej : poll_once interval (Ok data)
                 = Reject (JsError (terminal_message (error data)))).
  { simpl. unfold on_response, terminal_message.
    rewrite Herr, Hpending, Hslow.
    destruct (strict_eq (error data) "expired_token"); [reflexivity|].
    destruct (strict_eq (error data) "access_denied"); reflexivity. }
  subst attempt.
  rewrite (rejection_ends_attempt before later (Ok data) Hkeep Hrej).
  destruct (through_counts before Hkeep) as [Hr Hw].
  simpl. repeat split.
  - rewrite requests_app, Hr. unfold requests; simpl. lia.
  - rewrite waits_app, length_app, Hw. simpl. lia.
Qed.

(** An answer object with neither a non-empty error nor a non-empty
    access token does not fail the attempt: [poll] sets a timer of the
    [interval] the attempt was started with, and the attempt continues
    with the answers that follow, its outcome being theirs. *)
Theorem unexpected_response_keeps_polling
        (before later : list (result TokenData)) (data : TokenData) :
  forallb (keeps_polling interval) before = true ->
  truthy (error data) = false ->
  truthy (access_token data) = false ->
  poll_once interval (Ok data) = Schedule (interval * 1000)
  /\ pollForAccessToken this deviceCode interval (before ++ Ok data :: later)
     = (polling_events this deviceCode interval before
          ++ token_request this deviceCode :: SetTimeout (interval * 1000)
          :: fst (pollForAccessToken this deviceCode interval later),
        snd (pollForAccessToken this deviceCode interval later)).
Proof.
  intros Hkeep Herr Htok.
  assert (Hs : poll_once interval (Ok data) = Schedule (interval * 1000)).
  { simpl. unfold on_response. now rewrite Herr, Htok. }
  split; [exact Hs|].
  rewrite poll_through by assumption.
  cbn [pollForAccessToken]. rewrite Hs.
  now destruct (pollForAccessToken this deviceCode interval later).
Qed.

(** C4. After [slow_down], an answer with neither an error nor an
    access token is followed by a wait of [interval] seconds, where the
    claim asks for the current effective interval, [interval + 5]: the
    increase is not kept, as for [authorization_pending].  And a body
    [null], which has neither field, is not treated as pending: the
    attempt is rejected with the TypeError and nothing more is
    requested. *)
Theorem unexpected_response_wait_forgets_slow_down :
  let attempt :=
    pollForAccessToken this deviceCode interval
      [error_answer "slow_down"; Ok OAuthResponse.empty_object;
       token_answer "tok" "repo"] in
  let on_null :=
    OAuthResponse.pollForAccessToken_on this deviceCode interval
      [Ok OAuthResponse.Null;
       Ok (OAuthResponse.Object OAuthResponse.empty_object)] in
  waits (fst attempt) = [(interval + 5) * 1000; interval * 1000]%Z
  /\ waits_spec interval ["slow_down"; "authorization_pending"]
     = [(interval + 5) * 1000; (interval + 5) * 1000]%Z
  /\ waits (fst attempt)
     <> waits_spec interval ["slow_down"; "authorization_pending"]
  /\ snd on_null = Rejected OAuthResponse.null_body_error
  /\ fst on_null = [token_request this deviceCode].
Proof.
  simpl. repeat split.
  intros Heq. injection Heq as Heq. lia.
Qed.

(** C5. When a request to the token endpoint fails, the promise is
    rejected with that very error and the attempt is over: no timer is
    set and no request follows, whatever the endpoint would have
    answered next. *)
Theorem transport_error_ends_attempt
        (before later : list (result TokenData)) (e : exn) :
  forallb (keeps_polling interval) before = true ->
  let attempt :=
    pollForAccessToken this deviceCode interval (before ++ Err e :: later) in
  snd attempt = Rejected e
  /\ fst attempt
     = polling_events this deviceCode interval before
         ++ [token_request this deviceCode]
  /\ requests (fst attempt) = S (List.length before)
  /\ List.length (waits (fst attempt)) = List.length before.
Proof.
  intros Hkeep attempt. subst attempt.
  rewrite (rejection_ends_attempt before later (Err e) Hkeep eq_refl).
  destruct (through_counts before Hkeep) as [Hr Hw].
  simpl. repeat split.
  - rewrite requests_app, Hr. unfold requests; simpl. lia.
  - rewrite waits_app, length_app, Hw. simpl. lia.
Qed.

(** C6. The error field is looked at first.  When it is non-empty the
    access token plays no part in what [poll] does: any other token, or
    none, gives the same action, and that action is not a success.  The
    promise is resolved exactly when there is no (non-empty) error and
    the access token is non-empty, and then with the answer itself. *)
Theorem error_field_checked_first (data : TokenData) :
  (truthy (error data) = true ->
   forall token : prop,
     on_response interval (with_access_token data token)
     = on_response interval data
     /\ resolution (on_response interval data) = None)
  /\ resolution (on_response interval data)
     = if negb (truthy (error data)) && truthy (access_token data)
       then Some data else None.
Proof.
  unfold on_response. split.
  - intros Herr token. simpl. rewrite Herr.
    split;
      repeat match goal with |- context [if ?b then _ else _] => destruct b end;
      reflexivity.
  - destruct (truthy (error data)); simpl.
    + repeat match goal with |- context [if ?b then _ else _] => destruct b end;
        reflexivity.
    + destruct (truthy (access_token data)); reflexivity.
Qed.

End Attempt.

Lemma terminal_error_ends_attempt_witness :
  let before := [error_answer "authorization_pending"; error_answer "slow_down"] in
  let later := [token_answer "tok" "repo"] in
  forallb (keeps_polling 5) before = true
  /\ truthy (Some "expired_token") = true
  /\ strict_eq (Some "expired_token") "authorization_pending" = false
  /\ strict_eq (Some "expired_token") "slow_down" = false
  /\ snd (pollForAccessToken demo_config "dc" 5
             (before ++ error_answer "expired_token" :: later))
     = Rejected (JsError "Device code expired. Please try again.")
  /\ requests (fst (pollForAccessToken demo_config "dc" 5
                      (before ++ error_answer "expired_token" :: later)))
     = 3%nat.
Proof.
  intros before later.
  pose proof (terminal_error_ends_attempt demo_config "dc" 5 before later
                {| error := Some "expired_token"; access_token := None;
                   token_type := None; scope := None |}
                eq_refl eq_refl eq_refl eq_refl) as H.
  do 4 (split; [reflexivity|]).
  split; [exact (proj1 H) | exact (proj1 (proj2 (proj2 H)))].
Defined.

Lemma unexpected_response_keeps_polling_witness :
  let empty := {| error := None; access_token := Some "";
                  token_type := None; scope := None |} in
  forallb (keeps_polling 5) [error_answer "slow_down"] = true
  /\ truthy (error empty) = false
  /\ truthy (access_token empty) = false
  /\ poll_once 5 (Ok empty) = Schedule 5000
  /\ snd (pollForAccessToken demo_config "dc" 5
             ([error_answer "slow_down"] ++ Ok empty :: [token_answer "tok" "repo"]))
     = snd (pollForAccessToken demo_config "dc" 5 [token_answer "tok" "repo"]).
Proof.
  intros empty.
  pose proof (unexpected_response_keeps_polling demo_config "dc" 5
                [error_answer "slow_down"] [token_answer "tok" "repo"] empty
                eq_refl eq_refl eq_refl) as H.
  do 3 (split; [reflexivity|]).
  split; [exact (proj1 H) | exact (f_equal snd (proj2 H))].
Defined.

Lemma transport_error_ends_attempt_witness :
  let before := [error_answer "authorization_pending"] in
  let e := JsError "connect ECONNREFUSED" in
  forallb (keeps_polling 5) before = true
  /\ snd (pollForAccessToken demo_config "dc" 5
             (before ++ Err e :: [token_answer "tok" "repo"]))
     = Rejected e
  /\ requests (fst (pollForAccessToken demo_config "dc" 5
                      (before ++ Err e :: [token_answer "tok" "repo"])))
     = 2%nat.
Proof.
  intros before e.
  pose proof (transport_error_ends_attempt demo_config "dc" 5 before
                [token_answer "tok" "repo"] e eq_refl) as H.
  split; [reflexivity|].
  split; [exact (proj1 H) | exact (proj1 (proj2 (proj2 H)))].
Defined.

Lemma error_field_checked_first_witness :
  let both := {| error := Some "access_denied"; access_token := Some "tok";
                 token_type := Some "bearer"; scope := Some "repo" |} in
  truthy (error both) = true
  /\ on_response 5 (with_access_token both None) = on_response 5 both
  /\ on_response 5 both = Reject (JsError "Access denied by user.")
  /\ resolution (on_response 5 both) = None.
Proof.
  intros both.
  pose proof (proj1 (error_field_checked_first 5 both) eq_refl None) as H.
  split; [reflexivity|].
  split; [exact (proj1 H)|].
  split; [reflexivity | exact (proj2 H)].
Defined.

End OAuthFacts.

(** ** Sealing and uploading secrets *)

Module GitHubFacts.
Import GitHub.

Section Service.
Context {W : Type} (P : Platform W).

(** [encryptSecret] is the sealing transform of the specification; it
    issues no request. *)
Lemma encryptSecret_spec (secretValue publicKey : string) (st : store) :
  encryptSecret P secretValue publicKey st
  = (fst (encrypt_spec P secretValue publicKey (fst st)),
     (snd (encrypt_spec P secretValue publicKey (fst st)), snd st)).
Proof.
  destruct st as [w log].
  unfold encryptSecret, encrypt_spec, bind, lift, effect, ret; simpl.
  destruct (from_base64 P publicKey) as [recipient|e]; [|reflexivity].
  destruct (crypto_box_seal P (from_string P secretValue) recipient w)
    as [[sealed|e] w']; reflexivity.
Qed.

(** C7. [encryptSecret] decodes the key from base64, takes the UTF-8
    bytes of the secret, seals them under the key and returns the sealed
    bytes in base64, nothing else being applied to them; when the key is
    not base64 it fails with the error of the decoding, the outside state
    untouched and the sealing function, whichever it is, not consulted. *)
Theorem encryptSecret_is_sealed_box (secretValue publicKey : string) (st : store) :
  encryptSecret P secretValue publicKey st
  = (let '(r, w') := encrypt_spec P secretValue publicKey (fst st) in
     (r, (w', snd st)))
  /\ (forall e : exn,
         from_base64 P publicKey = Err e ->
         forall seal,
           encryptSecret (with_seal P seal) secretValue publicKey st
           = (Err e, st)).
Proof.
  split.
  - rewrite encryptSecret_spec.
    now destruct (encrypt_spec P secretValue publicKey (fst st)).
  - intros e Hbad seal. destruct st as [w log].
    unfold encryptSecret, bind, lift; simpl. now rewrite Hbad.
Qed.

Lemma createOrUpdateRepoSecret_unfold
      (owner repo secretName secretValue : string) (w0 : W) (log : list request) :
  createOrUpdateRepoSecret P owner repo secretName secretValue (w0, log)
  = match get_public_key P owner repo w0 with
    | (Err e, w1) => (Err e, (w1, log ++ [GetPublicKey owner repo]))
    | (Ok publicKeyData, w1) =>
        match encrypt_spec P secretValue (key publicKeyData) w1 with
        | (Err e, w2) => (Err e, (w2, log ++ [GetPublicKey owner repo]))
        | (Ok sealed, w2) =>
            let '(r, w3) :=
              put_secret P owner repo secretName sealed (key_id publicKeyData) w2 in
            (r, (w3, log ++ [GetPublicKey owner repo;
                             PutSecret owner repo secretName sealed
                                       (key_id publicKeyData)]))
        end
    end.
Proof.
  unfold createOrUpdateRepoSecret, getRepoPublicKey.
  unfold bind at 1. unfold send at 1. simpl.
  destruct (get_public_key P owner repo w0) as [[publicKeyData|e] w1]; [|reflexivity].
  unfold bind. rewrite encryptSecret_spec. simpl.
  destruct (encrypt_spec P secretValue (key publicKeyData) w1) as [[sealed|e] w2];
    simpl; [|reflexivity].
  unfold send; simpl.
  destruct (put_secret P owner repo secretName sealed (key_id publicKeyData) w2).
  now rewrite <- app_assoc.
Qed.

(** C1. [createOrUpdateRepoSecret] asks for the public key, and issues
    the PUT request only when the key was fetched and the secret sealed
    under it; the request then carries the sealed value in base64 and the
    [key_id] of the fetched key, besides owner, repository and name.  When
    fetching the key or sealing fails the call fails with that error and
    the only request issued is the one for the key. *)
Theorem createOrUpdateRepoSecret_sends_only_ciphertext
        (owner repo secretName secretValue : string) (st : store) :
  createOrUpdateRepoSecret P owner repo secretName secretValue st
  = match get_public_key P owner repo (fst st) with
    | (Err e, w1) => (Err e, (w1, snd st ++ [GetPublicKey owner repo]))
    | (Ok publicKeyData, w1) =>
        match encrypt_spec P secretValue (key publicKeyData) w1 with
        | (Err e, w2) => (Err e, (w2, snd st ++ [GetPublicKey owner repo]))
        | (Ok sealed, w2) =>
            let '(r, w3) :=
              put_secret P owner repo secretName sealed (key_id publicKeyData) w2 in
            (r, (w3, snd st ++ [GetPublicKey owner repo;
                                PutSecret owner repo secretName sealed
                                          (key_id publicKeyData)]))
        end
    end.
Proof. destruct st as [w0 log]. apply createOrUpdateRepoSecret_unfold. Qed.

(** The upload depends on the secret only through its sealed form. *)
Lemma upload_sees_sealed_value_only
      (owner repo secretName value1 value2 : string) (st : store) :
  (forall publicKey w,
      encrypt_spec P value1 publicKey w = encrypt_spec P value2 publicKey w) ->
  createOrUpdateRepoSecret P owner repo secretName value1 st
  = createOrUpdateRepoSecret P owner repo secretName value2 st.
Proof.
  intros Hsame. destruct st as [w0 log].
  rewrite !createOrUpdateRepoSecret_unfold.
  destruct (get_public_key P owner repo w0) as [[publicKeyData|e] w1]; [|reflexivity].
  now rewrite Hsame.
Qed.

(** Each call adds exactly one request for the key to the log. *)
Lemma createOrUpdateRepoSecret_asks_key_once
      (owner repo secretName secretValue : string) (st : store) :
  List.length (filter is_get
     (snd (snd (createOrUpdateRepoSecret P owner repo secretName secretValue st))))
  = S (List.length (filter is_get (snd st))).
Proof.
  destruct st as [w0 log]. rewrite createOrUpdateRepoSecret_unfold.
  destruct (get_public_key P owner repo w0) as [[publicKeyData|e] w1]; simpl.
  - destruct (encrypt_spec P secretValue (key publicKeyData) w1) as [[sealed|e] w2];
      simpl.
    + destruct (put_secret P owner repo secretName sealed (key_id publicKeyData) w2).
      simpl. rewrite filter_app, length_app. simpl. lia.
    + rewrite filter_app, length_app. simpl. lia.
  - rewrite filter_app, length_app. simpl. lia.
Qed.

(** *** The batch *)

Lemma batch_loop_outcomes (owner repo : string) (entries : list (string * string)) :
  forall (acc : BatchResult) (st : store),
    batch_loop P owner repo entries acc st
    = (Ok {| success := success acc
                          ++ succeeded (keys entries)
                               (fst (outcomes P owner repo entries st));
             failed := failed acc
                         ++ rejected (keys entries)
                              (fst (outcomes P owner repo entries st)) |},
       snd (outcomes P owner repo entries st)).
Proof.
  induction entries as [|[name value] rest IH]; intros acc st; simpl.
  - unfold ret. rewrite !app_nil_r. now destruct acc.
  - unfold bind at 1. unfold batch_step, try_catch. unfold bind at 1.
    destruct (createOrUpdateRepoSecret P owner repo name value st) as [[[]|e] st1];
      unfold ret; rewrite IH;
      destruct (outcomes P owner repo rest st1) as [rs st2]; simpl;
      now rewrite <- app_assoc.
Qed.

Lemma outcomes_length (owner repo : string) (entries : list (string * string)) :
  forall st, List.length (fst (outcomes P owner repo entries st)) = List.length entries.
Proof.
  induction entries as [|[name value] rest IH]; intros st; simpl; [reflexivity|].
  destruct (createOrUpdateRepoSecret P owner repo name value st) as [r st1].
  specialize (IH st1).
  destruct (outcomes P owner repo rest st1) as [rs st2]. simpl in *. now rewrite IH.
Qed.

Lemma outcomes_ask_key_for_each (owner repo : string) (entries : list (string * string)) :
  forall st,
    List.length (filter is_get (snd (snd (outcomes P owner repo entries st))))
    = (List.length (filter is_get (snd st)) + List.length entries)%nat.
Proof.
  induction entries as [|[name value] rest IH]; intros st; simpl; [lia|].
  pose proof (createOrUpdateRepoSecret_asks_key_once owner repo name value st) as Hone.
  destruct (createOrUpdateRepoSecret P owner repo name value st) as [r st1].
  specialize (IH st1).
  destruct (outcomes P owner repo rest st1) as [rs st2]. simpl in *.
  rewrite IH, Hone. lia.
Qed.

End Service.

Lemma succeeded_rejected_permutation (names : list string) :
  forall rs : list (result unit),
    List.length rs = List.length names ->
    Permutation names (succeeded names rs ++ map fst (rejected names rs)).
Proof.
  induction names as [|n names IH]; intros [|[u|e] rs] Hlen; simpl in *;
    try discriminate; try constructor.
  - apply IH. lia.
  - apply Permutation_cons_app. apply IH. lia.
Qed.

Lemma succeeded_incl (names : list string) :
  forall (rs : list (result unit)) (n : string),
    In n (succeeded names rs) -> In n names.
Proof.
  induction names as [|m names IH]; intros [|[u|e] rs] n; simpl; try tauto.
  - intros [->|Hin]; [now left | right; eauto].
  - intros Hin. right; eauto.
Qed.

Lemma rejected_incl (names : list string) :
  forall (rs : list (result unit)) (n : string),
    In n (map fst (rejected names rs)) -> In n names.
Proof.
  induction names as [|m names IH]; intros [|[u|e] rs] n; simpl; try tauto.
  - intros Hin. right; eauto.
  - intros [->|Hin]; [now left | right; eauto].
Qed.

Lemma succeeded_rejected_disjoint (names : list string) :
  NoDup names ->
  forall (rs : list (result unit)) (n : string),
    In n (succeeded names rs) -> ~ In n (map fst (rejected names rs)).
Proof.
  induction 1 as [|m names Hfresh Hnd IH]; intros [|[u|e] rs] n; simpl; try tauto.
  - intros [->|Hin] Hrej.
    + apply Hfresh. eapply rejected_incl; eassumption.
    + eapply IH; eassumption.
  - intros Hin [->|Hrej].
    + apply Hfresh. eapply succeeded_incl; eassumption.
    + eapply IH; eassumption.
Qed.

(** C10. [batchCreateSecrets] runs the pipeline of
    [createOrUpdateRepoSecret] for every entry, in input order, the
    failure of one entry not stopping the next ones: a key is asked for
    each entry.  It returns normally, [success] listing the names whose
    pipeline completed and [failed] the others with the message of their
    error; together they hold every input name, and each name of a
    record is in exactly one of them. *)
Theorem batchCreateSecrets_reports_every_secret
        {W : Type} (P : Platform W) (owner repo : string)
        (secrets : record) (st : store) :
  let rs := fst (outcomes P owner repo secrets st) in
  let st' := snd (outcomes P owner repo secrets st) in
  batchCreateSecrets P owner repo secrets st
  = (Ok {| success := succeeded (keys secrets) rs;
           failed := rejected (keys secrets) rs |}, st')
  /\ List.length rs = List.length secrets
  /\ List.length (filter is_get (snd st'))
     = (List.length (filter is_get (snd st)) + List.length secrets)%nat
  /\ Permutation (keys secrets)
                 (succeeded (keys secrets) rs ++ map fst (rejected (keys secrets) rs))
  /\ (well_formed secrets ->
      forall name : string,
        In name (keys secrets) ->
        (In name (succeeded (keys secrets) rs)
         /\ ~ In name (map fst (rejected (keys secrets) rs)))
        \/ (~ In name (succeeded (keys secrets) rs)
            /\ In name (map fst (rejected (keys secrets) rs)))).
Proof.
  intros rs st'.
  assert (Hlen : List.length rs = List.length (keys secrets)).
  { subst rs. unfold keys. rewrite length_map. apply outcomes_length. }
  split; [|split; [|split; [|split]]].
  - unfold batchCreateSecrets. now rewrite batch_loop_outcomes.
  - subst rs. apply outcomes_length.
  - subst st'. apply outcomes_ask_key_for_each.
  - now apply succeeded_rejected_permutation.
  - intros Hwf name Hin.
    pose proof (succeeded_rejected_permutation (keys secrets) rs Hlen) as Hperm.
    apply (Permutation_in _ Hperm) in Hin. apply in_app_or in Hin.
    destruct Hin as [Hs|Hr]; [left | right]; split; try assumption.
    + now apply succeeded_rejected_disjoint.
    + intros Hs. now apply (succeeded_rejected_disjoint Hwf rs name Hs).
Qed.

(** *** Runs on the reference platform *)

Example base64_decodes_demo_key :
  from_base64 Reference.platform Reference.demo_key
  = Ok (from_string Reference.platform "ABCDEFGHIJKLMNOPQRSTUVWXYZ012345").
Proof. reflexivity. Qed.

Example base64_encodes_with_padding :
  to_base64 Reference.platform (from_string Reference.platform "light work.")
  = "bGlnaHQgd29yay4=".
Proof. reflexivity. Qed.

Example base64_refuses_short_padding :
  from_base64 Reference.platform "TQ=" = Err (JsError "invalid input").
Proof. reflexivity. Qed.

Example upload_succeeds :
  createOrUpdateRepoSecret Reference.platform "octo" "repo" "API_KEY" "abc" (0%N, [])
  = (Ok tt,
     (1%N, [GetPublicKey "octo" "repo";
            PutSecret "octo" "repo" "API_KEY" "AGNiYQ==" "1"])).
Proof. reflexivity. Qed.

Example upload_without_key_sends_nothing :
  createOrUpdateRepoSecret Reference.platform "octo" "gone" "API_KEY" "abc" (0%N, [])
  = (Err (JsError "Not Found"), (0%N, [GetPublicKey "octo" "gone"])).
Proof. reflexivity. Qed.

Example upload_with_bad_key_sends_nothing :
  createOrUpdateRepoSecret Reference.platform "octo" "badkey" "API_KEY" "abc" (0%N, [])
  = (Err (JsError "invalid input"), (0%N, [GetPublicKey "octo" "badkey"])).
Proof. reflexivity. Qed.

(** Sealing the same secret under the same key twice gives two different
    values: the outside state moves on between the calls. *)
Example sealing_twice_differs :
  let first := encryptSecret Reference.platform "abc" Reference.demo_key (0%N, []) in
  let second := encryptSecret Reference.platform "abc" Reference.demo_key (snd first) in
  fst first = Ok "AGNiYQ==" /\ fst second = Ok "AWNiYQ==".
Proof. split; reflexivity. Qed.

Lemma demo_secrets_well_formed : well_formed Reference.demo_secrets.
Proof.
  unfold well_formed, Reference.demo_secrets; simpl.
  repeat constructor; simpl; intuition discriminate.
Qed.

Lemma encryptSecret_is_sealed_box_witness :
  from_base64 Reference.platform "not base64!" = Err (JsError "invalid input")
  /\ encryptSecret (with_seal Reference.platform Reference.toy_seal)
                   "s3cret" "not base64!" (0%N, [])
     = (Err (JsError "invalid input"), (0%N, [])).
Proof.
  split; [reflexivity|].
  exact (proj2 (encryptSecret_is_sealed_box Reference.platform
                  "s3cret" "not base64!" (0%N, []))
               (JsError "invalid input") eq_refl Reference.toy_seal).
Defined.

Lemma batchCreateSecrets_reports_every_secret_witness :
  well_formed Reference.demo_secrets
  /\ In "LOCKED" (keys Reference.demo_secrets)
  /\ batchCreateSecrets Reference.platform "octo" "repo" Reference.demo_secrets (0%N, [])
     = (Ok {| success := ["API_KEY"; "DB_URL"];
              failed := [("LOCKED", "Forbidden")] |},
        (3%N,
         [GetPublicKey "octo" "repo";
          PutSecret "octo" "repo" "API_KEY" "AGNiYQ==" "1";
          GetPublicKey "octo" "repo";
          PutSecret "octo" "repo" "LOCKED" "AWZlZA==" "1";
          GetPublicKey "octo" "repo";
          PutSecret "octo" "repo" "DB_URL" "AmloZw==" "1"]))
  /\ ((In "LOCKED" ["API_KEY"; "DB_URL"] /\ ~ In "LOCKED" ["LOCKED"])
      \/ (~ In "LOCKED" ["API_KEY"; "DB_URL"] /\ In "LOCKED" ["LOCKED"])).
Proof.
  pose proof (batchCreateSecrets_reports_every_secret Reference.platform
                "octo" "repo" Reference.demo_secrets (0%N, [])) as H.
  assert (Hin : In "LOCKED" (keys Reference.demo_secrets)) by (simpl; tauto).
  split; [exact demo_secrets_well_formed|].
  split; [exact Hin|].
  split; [exact (proj1 H)|].
  exact (proj2 (proj2 (proj2 (proj2 H))) demo_secrets_well_formed "LOCKED" Hin).
Defined.

End GitHubFacts.

(** ** Reading a .env file *)

Unset Implicit Arguments.

Module EnvFileFacts.
Import Regex EnvParser EnvFile.

(** *** Strings and lists of characters *)

Lemma chars_app (a b : string) :
  list_ascii_of_string (a ++ b)%string
  = list_ascii_of_string a ++ list_ascii_of_string b.
Proof. induction a as [|c a IH]; simpl; [reflexivity | now rewrite IH]. Qed.

(** *** [split] *)

Lemma split_lines_not_empty (s : chars) : split_lines s <> [].
Proof.
  destruct s as [|c s]; simpl; [discriminate|].
  destruct (Ascii.eqb c LF); [discriminate|].
  destruct (split_lines s); discriminate.
Qed.

Lemma split_lines_app (a b : chars) :
  split_lines (a ++ LF :: b) = split_lines a ++ split_lines b.
Proof.
  induction a as [|c a IH]; simpl; [reflexivity|].
  destruct (Ascii.eqb c LF); rewrite IH; [reflexivity|].
  pose proof (split_lines_not_empty a) as Hne.
  destruct (split_lines a) as [|line lines]; [congruence | reflexivity].
Qed.

Lemma split_lines_one (s : chars) :
  forallb (fun c => negb (Ascii.eqb c LF)) s = true -> split_lines s = [s].
Proof.
  induction s as [|c s IH]; simpl; [reflexivity|].
  intros H. apply andb_prop in H. destruct H as [Hc Hs].
  destruct (Ascii.eqb c LF); [discriminate|].
  now rewrite (IH Hs).
Qed.

(** *** [trim] *)

Lemma trim_start_spaces (l s : chars) :
  forallb is_space l = true -> trim_start (l ++ s) = trim_start s.
Proof.
  induction l as [|c l IH]; simpl; [reflexivity|].
  intros H. apply andb_prop in H. destruct H as [Hc Hl]. now rewrite Hc, IH.
Qed.

Lemma trim_start_all_space (s : chars) :
  forallb is_space s = true -> trim_start s = [].
Proof.
  intros H. rewrite <- (app_nil_r s). now rewrite trim_start_spaces.
Qed.

(** What [trim_start] leaves is a suffix; it is empty or starts with a
    character that is not white space. *)
Lemma trim_start_split (s : chars) :
  exists l, forallb is_space l = true /\ s = l ++ trim_start s
            /\ match trim_start s with
               | [] => True
               | c :: _ => is_space c = false
               end.
Proof.
  induction s as [|c s IH]; simpl.
  - exists []. repeat split.
  - destruct (is_space c) eqn:Hc.
    + destruct IH as [l [Hl [Hs Hhead]]].
      exists (c :: l). simpl. rewrite Hc, Hl. repeat split; [now f_equal | exact Hhead].
    + exists []. simpl. now rewrite Hc.
Qed.

Lemma trim_start_app_keep (s r : chars) :
  trim_start s <> [] -> trim_start (s ++ r) = trim_start s ++ r.
Proof.
  induction s as [|c s IH]; simpl; [congruence|].
  destruct (is_space c); [exact IH | reflexivity].
Qed.

Lemma forallb_rev {A} (f : A -> bool) (l : list A) :
  forallb f (rev l) = forallb f l.
Proof.
  induction l as [|x l IH]; simpl; [reflexivity|].
  rewrite forallb_app, IH. simpl. rewrite andb_true_r. apply andb_comm.
Qed.

(** White space around a line does not count. *)
Lemma trim_padding (l s r : chars) :
  forallb is_space l = true -> forallb is_space r = true ->
  trim (l ++ s ++ r) = trim s.
Proof.
  intros Hl Hr. unfold trim. f_equal.
  rewrite trim_start_spaces by assumption.
  destruct (trim_start s) as [|c t] eqn:Hs.
  - assert (Hall : forallb is_space s = true).
    { destruct (trim_start_split s) as [l' [Hl' [Heq _]]].
      rewrite Hs, app_nil_r in Heq. now subst. }
    rewrite (trim_start_all_space (s ++ r)); [reflexivity|].
    rewrite forallb_app. now rewrite Hall, Hr.
  - rewrite trim_start_app_keep by (rewrite Hs; discriminate).
    rewrite Hs, rev_app_distr.
    apply trim_start_spaces. now rewrite forallb_rev.
Qed.

Lemma trim_tight (s : chars) :
  match s with
  | [] => True
  | c :: _ => is_space c = false /\ is_space (last s c) = false
  end ->
  trim s = s.
Proof.
  destruct s as [|c s]; [reflexivity|].
  intros [Hc Hlast]. unfold trim.
  cbn [trim_start]. rewrite Hc.
  assert (Hrev : exists t, rev (c :: s) = last (c :: s) c :: t).
  { destruct (exists_last (l := c :: s)) as [t [x Heq]]; [discriminate|].
    rewrite Heq, last_last, rev_app_distr. simpl. eauto. }
  destruct Hrev as [t Ht]. rewrite Ht. cbn [trim_start]. rewrite Hlast.
  rewrite <- Ht. apply rev_involutive.
Qed.

(** *** The matcher *)

Section Matcher.
Context {A : Type}.

Lemma star_exec_passes (m : nat -> chars -> econt -> option A) :
  (forall i s k x, m i s k = Some x -> exists i' s', k i' s' = Some x) ->
  forall fuel k i s x,
    star_exec m k fuel i s = Some x -> exists i' s', k i' s' = Some x.
Proof.
  intros Hm. induction fuel as [|fuel IH]; intros k i s x; simpl.
  - eauto.
  - destruct (m i s _) as [a|] eqn:Hstep.
    + intros [= <-].
      apply Hm in Hstep. destruct Hstep as [i' [s' Hk]].
      destruct (i <? i')%nat; [eapply IH; eassumption | discriminate].
    + eauto.
Qed.

(** A successful match went through its continuation. *)
Lemma exec_passes (r : regex) :
  forall i s (k : econt) (x : A),
    exec r i s k = Some x -> exists i' s', k i' s' = Some x.
Proof.
  induction r as [| |l|ranges|a IHa b IHb|a IHa|a IHa]; intros i s k x; simpl.
  - destruct (i =? 0)%nat; [eauto | discriminate].
  - destruct s; [eauto | discriminate].
  - destruct (strip l s); [eauto | discriminate].
  - destruct s as [|c s]; [discriminate|].
    destruct (in_class ranges c); [eauto | discriminate].
  - intros H. apply IHa in H. destruct H as [i' [s' H]]. eapply IHb; eassumption.
  - apply star_exec_passes. exact IHa.
  - destruct (rmatch a i s accept); [discriminate | eauto].
Qed.

Lemma star_exec_S (m : nat -> chars -> econt -> option A) (k : econt)
      (fuel i : nat) (s : chars) :
  star_exec m k (S fuel) i s
  = match m i s (fun i' s' =>
                   if (i <? i')%nat then star_exec m k fuel i' s' else None) with
    | Some a => Some a
    | None => k i s
    end.
Proof. reflexivity. Qed.

Lemma exec_class (ranges : list (ascii * ascii)) (i : nat) (s : chars) (k : econt) :
  exec (Class ranges) i s k
  = match s return option A with
    | c :: s' => if in_class ranges c then k (S i) s' else None
    | [] => None
    end.
Proof. reflexivity. Qed.

(** A starred class followed by [k]: [k] was entered after a run of
    characters of the class. *)
Lemma star_class_run (ranges : list (ascii * ascii)) (k : econt) :
  forall fuel i s (x : A),
    star_exec (exec (Class ranges)) k fuel i s = Some x ->
    exists run rest,
      s = run ++ rest /\ forallb (in_class ranges) run = true
      /\ k (i + List.length run)%nat rest = Some x.
Proof.
  assert (Hstay : forall i s x, k i s = Some x ->
            exists run rest,
              s = run ++ rest /\ forallb (in_class ranges) run = true
              /\ k (i + List.length run)%nat rest = Some x).
  { intros i s x Hk. exists [], s. rewrite Nat.add_0_r. auto. }
  induction fuel as [|fuel IH]; intros i s x; [apply Hstay|].
  rewrite star_exec_S, exec_class.
  destruct s as [|c s]; [apply Hstay|].
  destruct (in_class ranges c) eqn:Hc; [|apply Hstay].
  replace (i <? S i)%nat with true by (symmetry; apply Nat.ltb_lt; lia).
  destruct (star_exec (exec (Class ranges)) k fuel (S i) s) as [a|] eqn:Hrec;
    [|apply Hstay].
  intros [= <-].
  apply IH in Hrec. destruct Hrec as [run [rest [Hs [Hrun Hk]]]].
  exists (c :: run), rest. simpl. rewrite Hc, Hrun. subst s.
  repeat split. now rewrite Nat.add_succ_r.
Qed.

(** The longest run is tried first: when [k] accepts what follows it,
    that is the result. *)
Lemma star_class_longest (ranges : list (ascii * ascii)) (k : econt) :
  forall run rest fuel i (x : A),
    forallb (in_class ranges) run = true ->
    match rest with [] => True | c :: _ => in_class ranges c = false end ->
    (List.length (run ++ rest) <= fuel)%nat ->
    k (i + List.length run)%nat rest = Some x ->
    star_exec (exec (Class ranges)) k fuel i (run ++ rest) = Some x.
Proof.
  induction run as [|c run IH]; intros rest fuel i x Hrun Hstop Hfuel Hk.
  - cbn [app List.length] in *. rewrite Nat.add_0_r in Hk.
    destruct fuel as [|fuel]; [exact Hk|].
    rewrite star_exec_S, exec_class.
    destruct rest as [|c rest]; [exact Hk|]. now rewrite Hstop.
  - cbn [forallb app List.length] in Hrun, Hfuel, Hk.
    apply andb_prop in Hrun. destruct Hrun as [Hc Hrun].
    destruct fuel as [|fuel]; [lia|].
    rewrite <- app_comm_cons, star_exec_S, exec_class, Hc.
    replace (i <? S i)%nat with true by (symmetry; apply Nat.ltb_lt; lia).
    rewrite (IH rest fuel (S i) x); auto; [lia|].
    now rewrite Nat.add_succ_r in Hk.
Qed.

Lemma exec_seq (a b : regex) (i : nat) (s : chars) (k : @econt A) :
  exec (Seq a b) i s k = exec a i s (fun i' s' => exec b i' s' k).
Proof. reflexivity. Qed.

Lemma exec_star (a : regex) (i : nat) (s : chars) (k : @econt A) :
  exec (Star a) i s k = star_exec (exec a) k (List.length s) i s.
Proof. reflexivity. Qed.

End Matcher.

Lemma exec_parts_plain (r : regex) (p : list part) (i : nat) (s : chars)
      (caps : list chars) :
  exec_parts (Plain r :: p) i s caps
  = exec r i s (fun i' s' => exec_parts p i' s' caps).
Proof. reflexivity. Qed.

Lemma exec_parts_capture (r : regex) (p : list part) (i : nat) (s : chars)
      (caps : list chars) :
  exec_parts (Capture r :: p) i s caps
  = exec r i s (fun i' s' => exec_parts p i' s' (caps ++ [firstn (i' - i) s])).
Proof. reflexivity. Qed.

(** The result of a pattern extends the captures it was started with. *)
Lemma exec_parts_extends (p : list part) :
  forall i s caps out,
    exec_parts p i s caps = Some out -> exists more, out = caps ++ more.
Proof.
  induction p as [|[r|r] p IH]; intros i s caps out; simpl.
  - intros H. inversion H. exists []. now rewrite app_nil_r.
  - intros H. apply exec_passes in H. destruct H as [i' [s' H]]. eauto.
  - intros H. apply exec_passes in H. destruct H as [i' [s' H]].
    apply IH in H. destruct H as [more ->]. exists (firstn (i' - i) s :: more).
    now rewrite <- app_assoc.
Qed.

Lemma match_from_anchored (p : list part) (s : chars) (i : nat) :
  match_from (Plain Bol :: p) (S i) s = None.
Proof.
  revert i. induction s as [|c s IH]; intros i; simpl; [reflexivity | apply IH].
Qed.

Lemma str_match_anchored (p : list part) (s : chars) :
  str_match (Plain Bol :: p) s = exec_parts p 0 s [].
Proof.
  unfold str_match.
  destruct s as [|c s]; cbn [match_from exec_parts exec Nat.eqb].
  - now destruct (exec_parts p 0 [] []).
  - destruct (exec_parts p 0 (c :: s) []); [reflexivity|].
    apply (match_from_anchored p s 0).
Qed.

(** What the first group of the line pattern holds is an identifier. *)
Lemma line_key_shape (t : chars) (out : list chars) :
  str_match line_pattern t = Some out ->
  exists key more,
    out = key :: more /\ identifier_shape (string_of_list_ascii key) = true.
Proof.
  unfold line_pattern. rewrite str_match_anchored.
  rewrite exec_parts_capture, exec_seq, exec_class.
  destruct t as [|c t]; [discriminate|].
  destruct (in_class [upper; lower; underscore] c) eqn:Hc; [|discriminate].
  rewrite exec_star. intros H. apply star_class_run in H.
  destruct H as [run [rest [Ht [Hrun H]]]].
  apply exec_parts_extends in H. destruct H as [more ->].
  exists (c :: run), more. split.
  - simpl. f_equal. subst t.
    replace (1 + List.length run - 0)%nat with (S (List.length run)) by lia.
    simpl. f_equal. rewrite firstn_app, firstn_all, Nat.sub_diag. simpl.
    apply app_nil_r.
  - unfold identifier_shape. rewrite list_ascii_of_string_of_list_ascii.
    unfold name_start. rewrite Hc. exact Hrun.
Qed.

(** *** Character classes *)

Lemma space_not_name_char (c : ascii) :
  is_space c = true -> name_char c = false.
Proof.
  destruct c as [[] [] [] [] [] [] [] []]; vm_compute; congruence.
Qed.

Lemma name_start_not_space (c : ascii) :
  name_start c = true -> is_space c = false.
Proof.
  destruct c as [[] [] [] [] [] [] [] []]; vm_compute; congruence.
Qed.

Lemma name_start_not_hash (c : ascii) :
  name_start c = true -> Ascii.eqb c "#"%char = false.
Proof.
  destruct c as [[] [] [] [] [] [] [] []]; vm_compute; congruence.
Qed.

Lemma exec_lit_one {A} (x : ascii) (i : nat) (s : chars) (k : @econt A) :
  exec (Lit [x]) i (x :: s) k = k (i + 1)%nat s.
Proof. simpl. now rewrite Ascii.eqb_refl. Qed.

Lemma star_class_all {A} (ranges : list (ascii * ascii)) (k : @econt A)
      (run : chars) (i : nat) (x : A) :
  forallb (in_class ranges) run = true ->
  k (i + List.length run)%nat [] = Some x ->
  star_exec (exec (Class ranges)) k (List.length run) i run = Some x.
Proof.
  intros Hrun Hk.
  pose proof (star_class_longest ranges k run [] (List.length run) i x Hrun I) as H.
  rewrite app_nil_r in H. apply H; [lia | exact Hk].
Qed.

(** The line pattern on [key ws = ws value]. *)
Lemma line_match_assignment (c : ascii) (key ws1 ws2 value : chars) :
  name_start c = true ->
  forallb name_char key = true ->
  forallb is_space ws1 = true ->
  forallb is_space ws2 = true ->
  forallb (in_class not_line_terminator) value = true ->
  match value with [] => True | v :: _ => is_space v = false end ->
  str_match line_pattern ((c :: key) ++ ws1 ++ "="%char :: ws2 ++ value)
  = Some [c :: key; value].
Proof.
  intros Hc Hkey Hws1 Hws2 Hvalue Hhead.
  unfold line_pattern. rewrite str_match_anchored.
  rewrite exec_parts_capture, exec_seq, <- app_comm_cons, exec_class.
  unfold name_start in Hc. rewrite Hc. rewrite exec_star.
  apply star_class_longest; [exact Hkey | | lia |].
  { destruct ws1 as [|w ws1]; simpl; [reflexivity|].
    simpl in Hws1. apply andb_prop in Hws1.
    apply space_not_name_char. tauto. }
  cbv beta.
  rewrite exec_parts_plain, exec_star.
  apply star_class_longest; [exact Hws1 | reflexivity | lia |].
  cbv beta.
  rewrite exec_parts_plain, exec_lit_one.
  rewrite exec_parts_plain, exec_star.
  apply star_class_longest; [exact Hws2 | exact Hhead | lia |].
  cbv beta.
  rewrite exec_parts_capture, exec_star.
  apply star_class_all; [exact Hvalue|].
  rewrite exec_parts_plain. cbn [exec exec_parts].
  f_equal. cbn [app]. f_equal.
  - replace (1 + List.length key - 0)%nat with (S (List.length key)) by lia.
    cbn [firstn]. f_equal.
    rewrite firstn_app, firstn_all, Nat.sub_diag. cbn [firstn]. apply app_nil_r.
  - rewrite Nat.add_comm, Nat.add_sub. now rewrite firstn_all.
Qed.

(** *** One line *)

Lemma parse_line_trim (acc : record) (line1 line2 : chars) :
  trim line1 = trim line2 -> parse_line acc line1 = parse_line acc line2.
Proof. unfold parse_line. now intros ->. Qed.

(** White space around a line is ignored. *)
Lemma parse_line_padding (acc : record) (l line r : chars) :
  forallb is_space l = true -> forallb is_space r = true ->
  parse_line acc (l ++ line ++ r) = parse_line acc line.
Proof. intros Hl Hr. apply parse_line_trim. now apply trim_padding. Qed.

Lemma last_app_cons {A} (a : list A) (x : A) (b : list A) (d : A) :
  last (a ++ x :: b) d = last (x :: b) d.
Proof.
  induction a as [|y a IH]; [reflexivity|].
  rewrite <- app_comm_cons. cbn [last].
  destruct (a ++ x :: b) eqn:Heq; [destruct a; discriminate | exact IH].
Qed.

Lemma last_indep {A} (x : A) (l : list A) (d d' : A) :
  last (x :: l) d = last (x :: l) d'.
Proof.
  revert x. induction l as [|y l IH]; intros x; [reflexivity|].
  cbn [last]. apply IH.
Qed.

Lemma parse_line_assignment_chars
      (acc : record) (c : ascii) (key ws1 ws2 value : chars) :
  name_start c = true ->
  forallb name_char key = true ->
  forallb is_space ws1 = true ->
  forallb is_space ws2 = true ->
  forallb (in_class not_line_terminator) value = true ->
  match value with
  | [] => True
  | v :: _ => is_space v = false /\ is_space (last value v) = false
  end ->
  parse_line acc ((c :: key) ++ ws1 ++ "="%char :: ws2 ++ value)
  = assign acc (string_of_list_ascii (c :: key))
           (string_of_list_ascii (strip_quotes value)).
Proof.
  intros Hc Hkey Hws1 Hws2 Hvalue Htight.
  assert (Hmatch :
            parse_line acc ((c :: key) ++ ws1 ++ "="%char :: ws2 ++ value)
            = parse_line acc ((c :: key) ++ ws1 ++ "="%char ::
                                (match value with [] => [] | _ => ws2 end) ++ value)).
  { destruct value as [|v vs]; [|reflexivity].
    rewrite !app_nil_r.
    replace ((c :: key) ++ ws1 ++ "="%char :: ws2)
      with ([] ++ ((c :: key) ++ ws1 ++ ["="%char]) ++ ws2)
      by (simpl; now rewrite <- !app_assoc).
    rewrite parse_line_padding by auto.
    reflexivity. }
  rewrite Hmatch. clear Hmatch.
  set (ws2' := match value with [] => [] | _ => ws2 end).
  assert (Hws2' : forallb is_space ws2' = true) by (subst ws2'; now destruct value).
  set (line := (c :: key) ++ ws1 ++ "="%char :: ws2' ++ value).
  assert (Htrim : trim line = line).
  { apply trim_tight. subst line. rewrite <- app_comm_cons.
    split; [now apply name_start_not_space|].
    rewrite app_comm_cons, app_assoc.
    destruct value as [|v vs].
    - subst ws2'. rewrite app_nil_r. now rewrite last_app_cons.
    - rewrite app_comm_cons, app_assoc, last_app_cons.
      rewrite (last_indep v vs c v). tauto. }
  unfold parse_line. rewrite Htrim.
  assert (Hvalue_trim : trim value = value).
  { apply trim_tight. destruct value; [exact I | exact Htight]. }
  subst line.
  rewrite (line_match_assignment c key ws1 ws2' value); auto.
  - rewrite <- app_comm_cons. cbn [starts_with].
    rewrite (name_start_not_hash c Hc). now rewrite Hvalue_trim.
  - destruct value; [exact I | tauto].
Qed.

(** *** The file, line by line *)

Lemma forallb_impl {A} (f g : A -> bool) (l : list A) :
  (forall x, f x = true -> g x = true) ->
  forallb f l = true -> forallb g l = true.
Proof.
  intros Hfg. induction l as [|x l IH]; simpl; [reflexivity|].
  intros H. apply andb_prop in H. destruct H as [Hx Hl].
  now rewrite (Hfg x Hx), (IH Hl).
Qed.

(** What follows a line feed is read from the record of what precedes. *)
Lemma parseEnvFile_append (a b : string) :
  parseEnvFile (a ++ newline ++ b)
  = fold_left parse_line (split_lines (list_ascii_of_string b)) (parseEnvFile a).
Proof.
  unfold parseEnvFile. rewrite !chars_app. cbn [newline list_ascii_of_string app].
  now rewrite split_lines_app, fold_left_app.
Qed.

Lemma parseEnvFile_append_line (a line : string) :
  one_line line = true ->
  parseEnvFile (a ++ newline ++ line)
  = parse_line (parseEnvFile a) (list_ascii_of_string line).
Proof.
  intros Hline. rewrite parseEnvFile_append.
  now rewrite (split_lines_one _ Hline).
Qed.

Lemma parseEnvFile_first_line (line : string) :
  one_line line = true ->
  parseEnvFile line = parse_line [] (list_ascii_of_string line).
Proof.
  intros Hline. unfold parseEnvFile. now rewrite (split_lines_one _ Hline).
Qed.

Lemma one_line_app (a b : string) :
  one_line (a ++ b) = one_line a && one_line b.
Proof. unfold one_line. now rewrite chars_app, forallb_app. Qed.

Lemma inline_space_spaces (s : string) :
  inline_space s = true -> forallb is_space (list_ascii_of_string s) = true.
Proof.
  apply forallb_impl. intros c H. apply andb_prop in H. tauto.
Qed.

Lemma inline_space_one_line (s : string) :
  inline_space s = true -> one_line s = true.
Proof.
  apply forallb_impl. intros c H. apply andb_prop in H. tauto.
Qed.

Lemma name_char_not_lf (c : ascii) : name_char c = true -> negb (Ascii.eqb c LF) = true.
Proof.
  destruct c as [[] [] [] [] [] [] [] []]; vm_compute; congruence.
Qed.

Lemma name_start_name_char (c : ascii) : name_start c = true -> name_char c = true.
Proof.
  destruct c as [[] [] [] [] [] [] [] []]; vm_compute; congruence.
Qed.

Lemma dot_not_lf (c : ascii) :
  in_class not_line_terminator c = true -> negb (Ascii.eqb c LF) = true.
Proof.
  destruct c as [[] [] [] [] [] [] [] []]; vm_compute; congruence.
Qed.

Lemma identifier_chars (key : string) :
  identifier_shape key = true ->
  exists c rest,
    list_ascii_of_string key = c :: rest
    /\ name_start c = true /\ forallb name_char rest = true.
Proof.
  unfold identifier_shape.
  destruct (list_ascii_of_string key) as [|c rest]; [discriminate|].
  intros H. apply andb_prop in H. exists c, rest. tauto.
Qed.

Lemma identifier_one_line (key : string) :
  identifier_shape key = true -> one_line key = true.
Proof.
  intros H. apply identifier_chars in H. destruct H as [c [rest [Heq [Hc Hrest]]]].
  unfold one_line. rewrite Heq. simpl.
  rewrite (name_char_not_lf c (name_start_name_char c Hc)). simpl.
  revert Hrest. apply forallb_impl. exact name_char_not_lf.
Qed.

Lemma no_line_terminator_one_line (v : string) :
  no_line_terminator v = true -> one_line v = true.
Proof. apply forallb_impl. exact dot_not_lf. Qed.

Lemma tight_chars (v : string) :
  tight v = true ->
  match list_ascii_of_string v with
  | [] => True
  | c :: _ =>
      is_space c = false /\ is_space (last (list_ascii_of_string v) c) = false
  end.
Proof.
  unfold tight. destruct (list_ascii_of_string v) as [|c rest]; [trivial|].
  intros H. apply andb_prop in H. destruct H as [H1 H2].
  apply negb_true_iff in H1. apply negb_true_iff in H2. tauto.
Qed.

Lemma parse_line_assignment (acc : record) (l key ws1 ws2 value r : string) :
  identifier_shape key = true ->
  all_space l = true -> all_space ws1 = true ->
  all_space ws2 = true -> all_space r = true ->
  no_line_terminator value = true ->
  tight value = true ->
  parse_line acc
    (list_ascii_of_string (l ++ key ++ ws1 ++ "=" ++ ws2 ++ value ++ r)%string)
  = assign acc key (unquoted value).
Proof.
  intros Hkey Hl Hws1 Hws2 Hr Hvalue Htight.
  apply identifier_chars in Hkey. destruct Hkey as [c [rest [Heq [Hc Hrest]]]].
  rewrite !chars_app. cbn [list_ascii_of_string].
  replace (list_ascii_of_string key ++ list_ascii_of_string ws1
             ++ ["="%char] ++ list_ascii_of_string ws2
             ++ list_ascii_of_string value ++ list_ascii_of_string r)
    with ((list_ascii_of_string key ++ list_ascii_of_string ws1
             ++ "="%char :: list_ascii_of_string ws2 ++ list_ascii_of_string value)
            ++ list_ascii_of_string r)
    by (repeat (rewrite <- app_assoc || rewrite <- app_comm_cons); reflexivity).
  rewrite parse_line_padding by assumption.
  rewrite Heq.
  rewrite parse_line_assignment_chars; auto.
  - rewrite <- Heq, string_of_list_ascii_of_string. reflexivity.
  - apply tight_chars in Htight.
    destruct (list_ascii_of_string value); [exact I | exact Htight].
Qed.

Lemma assignment_one_line (l key ws1 ws2 value r : string) :
  identifier_shape key = true ->
  inline_space l = true -> inline_space ws1 = true ->
  inline_space ws2 = true -> inline_space r = true ->
  no_line_terminator value = true ->
  one_line (l ++ key ++ ws1 ++ "=" ++ ws2 ++ value ++ r) = true.
Proof.
  intros Hkey Hl Hws1 Hws2 Hr Hvalue.
  rewrite !one_line_app.
  rewrite (inline_space_one_line _ Hl), (identifier_one_line _ Hkey),
    (inline_space_one_line _ Hws1), (inline_space_one_line _ Hws2),
    (inline_space_one_line _ Hr), (no_line_terminator_one_line _ Hvalue).
  reflexivity.
Qed.

(** *** Lines that are skipped *)

Lemma trim_start_keeps_last (u : chars) (x : ascii) :
  is_space x = false -> exists t, trim_start (u ++ [x]) = t ++ [x].
Proof.
  intros Hx. induction u as [|c u IH]; simpl.
  - rewrite Hx. now exists [].
  - destruct (is_space c); [exact IH|]. now exists (c :: u).
Qed.

Lemma parse_line_skips (acc : record) (line : string) :
  no_name_at_start line = true ->
  parse_line acc (list_ascii_of_string line) = acc.
Proof.
  unfold no_name_at_start, parse_line, trim.
  destruct (trim_start_split (list_ascii_of_string line)) as [_ [_ [_ Hhead]]].
  destruct (trim_start (list_ascii_of_string line)) as [|c t]; [reflexivity|].
  intros Hc. apply negb_true_iff in Hc.
  cbn [rev].
  destruct (trim_start_keeps_last (rev t) c Hhead) as [u Hu].
  rewrite Hu, rev_app_distr. cbn [rev app].
  destruct (starts_with "#"%char (c :: rev u)); [reflexivity|].
  unfold line_pattern. rewrite str_match_anchored.
  rewrite exec_parts_capture, exec_seq, exec_class.
  unfold name_start in Hc. now rewrite Hc.
Qed.

(** *** What every parsed record satisfies *)

Lemma keys_define_property (o : record) (k v : string) :
  keys (define_property o k v)
  = if existsb (String.eqb k) (keys o) then keys o else keys o ++ [k].
Proof.
  induction o as [|[k' v'] o IH]; simpl; [reflexivity|].
  destruct (String.eqb_spec k k') as [->|Hne]; simpl; [reflexivity|].
  rewrite IH. now destruct (existsb (String.eqb k) (keys o)).
Qed.

Lemma existsb_eqb_In (k : string) (l : list string) :
  existsb (String.eqb k) l = true <-> In k l.
Proof.
  rewrite existsb_exists. split.
  - intros [x [Hin Heq]]. apply String.eqb_eq in Heq. now subst.
  - intros Hin. exists k. split; [assumption | apply String.eqb_refl].
Qed.

Lemma NoDup_snoc {A} (l : list A) (x : A) :
  NoDup l -> ~ In x l -> NoDup (l ++ [x]).
Proof.
  induction 1 as [|y l Hy Hl IH]; simpl; intros Hx.
  - constructor; [tauto | constructor].
  - constructor.
    + rewrite in_app_iff. simpl. intros [H|[H|[]]]; [tauto | subst; tauto].
    + apply IH. tauto.
Qed.

Lemma parsed_assign (o : record) (k v : string) :
  parsed o -> identifier_shape k = true -> parsed (assign o k v).
Proof.
  intros [Hwf [Hid Hproto]] Hk. unfold assign.
  destruct (String.eqb_spec k "__proto__") as [->|Hne]; [now repeat split|].
  unfold parsed, well_formed. rewrite keys_define_property.
  destruct (existsb (String.eqb k) (keys o)) eqn:Hin; [now repeat split|].
  repeat split.
  - apply NoDup_snoc; [exact Hwf|].
    intros Hk'. apply existsb_eqb_In in Hk'. congruence.
  - rewrite forallb_app, Hid. cbn [forallb andb]. now rewrite Hk.
  - rewrite existsb_app, Hproto. cbn [existsb orb]. rewrite orb_false_r.
    apply String.eqb_neq. congruence.
Qed.

Lemma parsed_parse_line (o : record) (line : chars) :
  parsed o -> parsed (parse_line o line).
Proof.
  intros Ho. unfold parse_line.
  destruct (trim line) as [|c t] eqn:Htrim; [exact Ho|].
  destruct (starts_with "#"%char (c :: t)); [exact Ho|].
  destruct (str_match line_pattern (c :: t)) as [out|] eqn:Hm; [|exact Ho].
  apply line_key_shape in Hm. destruct Hm as [key [more [-> Hkey]]].
  destruct more as [|value [|x more]]; try exact Ho.
  now apply parsed_assign.
Qed.

Lemma parsed_lines (lines : list chars) :
  forall o, parsed o -> parsed (fold_left parse_line lines o).
Proof.
  induction lines as [|line lines IH]; intros o Ho; [exact Ho|].
  simpl. apply IH. now apply parsed_parse_line.
Qed.

(** *** Properties of [parseEnvFile] *)

Lemma parsed_file (content : string) : parsed (parseEnvFile content).
Proof.
  unfold parseEnvFile. apply parsed_lines.
  repeat split. constructor.
Qed.

(** X1. The names of a record read from a file are pairwise distinct,
    each is an identifier [[A-Za-z_][A-Za-z0-9_]*], and none is
    [__proto__]. *)
Theorem parseEnvFile_parsed (content : string) :
  well_formed (parseEnvFile content)
  /\ forallb identifier_shape (keys (parseEnvFile content)) = true
  /\ existsb (String.eqb "__proto__") (keys (parseEnvFile content)) = false.
Proof.
  unfold parseEnvFile. apply parsed_lines.
  repeat split. constructor.
Qed.

(** X2. On a record read from a file [filterValidSecrets] drops
    nothing: it is the partition into the entries with a valid name and
    the other names, and the names it rejects all start with [GITHUB_]. *)
Theorem filterValidSecrets_of_parsed_file (content : string) :
  filterValidSecrets (parseEnvFile content) = partition_spec (parseEnvFile content)
  /\ forallb reserved_prefix (snd (filterValidSecrets (parseEnvFile content))) = true.
Proof.
  destruct (parsed_file content) as [Hwf [Hid Hproto]].
  assert (Hpart : filterValidSecrets (parseEnvFile content)
                  = partition_spec (parseEnvFile content)).
  { apply EnvParserFacts.filterValidSecrets_partition; [exact Hwf|].
    intros Hin. apply existsb_eqb_In in Hin. congruence. }
  split; [exact Hpart|].
  rewrite Hpart. unfold partition_spec. cbn [snd].
  revert Hid. generalize (parseEnvFile content). intros o.
  induction o as [|[k v] o IH]; [reflexivity|].
  cbn [keys map fst forallb filter]. intros H.
  apply andb_prop in H. destruct H as [Hk Ho].
  unfold valid_entry at 1. cbn [fst].
  rewrite EnvParserFacts.validateSecretName_unfold. unfold isValidName_spec.
  rewrite Hk. cbn [andb]. rewrite negb_involutive.
  destruct (reserved_prefix k) eqn:Hres; [|exact (IH Ho)].
  cbn [map fst forallb]. rewrite Hres. exact (IH Ho).
Qed.

Lemma assignment_line_read (content l key ws1 ws2 value r : string) :
  identifier_shape key = true ->
  inline_space l = true -> inline_space ws1 = true ->
  inline_space ws2 = true -> inline_space r = true ->
  no_line_terminator value = true ->
  tight value = true ->
  parseEnvFile (content ++ newline
                  ++ l ++ key ++ ws1 ++ "=" ++ ws2 ++ value ++ r)
  = assign (parseEnvFile content) key (unquoted value).
Proof.
  intros Hkey Hl Hws1 Hws2 Hr Hvalue Htight.
  rewrite parseEnvFile_append_line by (now apply assignment_one_line).
  apply parse_line_assignment; try assumption;
    unfold all_space; now apply inline_space_spaces.
Qed.

(** X3. A line [KEY = VALUE] at the end of a file, with any white space
    around its parts, sets [KEY] in the record of the lines before it to
    [VALUE], taken without the pair of quotes around it if there is
    one. *)
Theorem parseEnvFile_assignment_line
        (content l key ws1 ws2 value r : string) :
  identifier_shape key = true ->
  inline_space l = true -> inline_space ws1 = true ->
  inline_space ws2 = true -> inline_space r = true ->
  no_line_terminator value = true ->
  tight value = true ->
  parseEnvFile (content ++ newline
                  ++ l ++ key ++ ws1 ++ "=" ++ ws2 ++ value ++ r)
  = assign (parseEnvFile content) key (unquoted value).
Proof.
  intros Hkey Hl Hws1 Hws2 Hr Hvalue Htight.
  rewrite parseEnvFile_append_line by (now apply assignment_one_line).
  apply parse_line_assignment; try assumption;
    unfold all_space; now apply inline_space_spaces.
Qed.

Lemma string_app_nil_r (s : string) : (s ++ "")%string = s.
Proof. induction s as [|c s IH]; simpl; [reflexivity | now rewrite IH]. Qed.

Lemma string_app_assoc (a b c : string) :
  ((a ++ b) ++ c)%string = (a ++ b ++ c)%string.
Proof. induction a as [|x a IH]; simpl; [reflexivity | now rewrite IH]. Qed.

Lemma last_snoc {A} (l : list A) (x d : A) : last (l ++ [x]) d = x.
Proof. apply last_last. Qed.

(** What stands between two quotes of the same kind. *)
Lemma unquoted_between_quotes (q : ascii) (inner : string) :
  q = DQUOTE \/ q = QUOTE ->
  unquoted (String q (inner ++ String q "")) = inner.
Proof.
  intros Hq. unfold unquoted, strip_quotes.
  cbn [list_ascii_of_string]. rewrite chars_app. cbn [list_ascii_of_string].
  unfold ends_with. cbn [rev]. rewrite rev_app_distr. cbn [rev app starts_with].
  assert (Hcond : (Ascii.eqb q DQUOTE && Ascii.eqb q DQUOTE
                   || Ascii.eqb q QUOTE && Ascii.eqb q QUOTE) = true).
  { destruct Hq as [-> | ->]; reflexivity. }
  rewrite Hcond. unfold slice_1_m1. cbn [tl].
  rewrite removelast_last. apply string_of_list_ascii_of_string.
Qed.

(** X4. A value between two double quotes, or two single quotes, is
    read without them and as it stands, the white space at its ends
    kept. *)
Theorem parseEnvFile_quoted_value (content key inner : string) (q : ascii) :
  identifier_shape key = true ->
  q = DQUOTE \/ q = QUOTE ->
  no_line_terminator inner = true ->
  parseEnvFile (content ++ newline
                  ++ key ++ "=" ++ String q (inner ++ String q ""))
  = assign (parseEnvFile content) key inner.
Proof.
  intros Hkey Hq Hinner.
  pose proof (assignment_line_read content "" key "" ""
                (String q (inner ++ String q "")) "" Hkey
                eq_refl eq_refl eq_refl eq_refl) as H.
  cbn [append] in H |- *. rewrite string_app_nil_r in H.
  rewrite H.
  - now rewrite unquoted_between_quotes.
  - unfold no_line_terminator in *. cbn [list_ascii_of_string forallb].
    rewrite chars_app, forallb_app, Hinner. cbn [list_ascii_of_string forallb].
    destruct Hq as [-> | ->]; reflexivity.
  - unfold tight. cbn [list_ascii_of_string]. rewrite chars_app.
    cbn [list_ascii_of_string]. rewrite app_comm_cons, last_snoc.
    destruct Hq as [-> | ->]; reflexivity.
Qed.

Lemma fold_joined_lines (lines : list string) :
  forall acc,
    fold_left parse_line
      (split_lines (list_ascii_of_string (String.concat newline lines))) acc
    = fold_left parse_line
        (flat_map (fun l => split_lines (list_ascii_of_string l)) lines) acc.
Proof.
  induction lines as [|x lines IH]; intros acc; [reflexivity|].
  destruct lines as [|y lines].
  - cbn [String.concat flat_map]. now rewrite app_nil_r.
  - change (String.concat newline (x :: y :: lines))
      with (x ++ newline ++ String.concat newline (y :: lines))%string.
    rewrite !chars_app. cbn [newline list_ascii_of_string app].
    rewrite split_lines_app, fold_left_app, IH.
    change (flat_map (fun l => split_lines (list_ascii_of_string l))
                     (x :: y :: lines))
      with (split_lines (list_ascii_of_string x)
              ++ flat_map (fun l => split_lines (list_ascii_of_string l))
                          (y :: lines)).
    now rewrite fold_left_app.
Qed.

(** X5. A line whose first character after white space cannot start a
    name, such as a comment, a blank line or [1BAD=3], changes nothing
    wherever it stands: the file being the pieces [before], the line and
    the pieces [after] joined by line feeds, it is read as the file
    without the line.  No piece before it makes it the first line, no
    piece after it the last, neither the only line. *)
Theorem parseEnvFile_skips_line (before after : list string) (line : string) :
  one_line line = true ->
  no_name_at_start line = true ->
  parseEnvFile (String.concat newline (before ++ line :: after))
  = parseEnvFile (String.concat newline (before ++ after)).
Proof.
  intros Hone Hskip. unfold parseEnvFile.
  rewrite !fold_joined_lines, !flat_map_app, !fold_left_app.
  cbn [flat_map]. rewrite fold_left_app, (split_lines_one _ Hone).
  cbn [fold_left]. now rewrite parse_line_skips.
Qed.

(** *** Line endings *)

Lemma split_lines_crlf (s : string) :
  Forall2 (fun x y => x = y \/ x = y ++ [CR])
          (split_lines (list_ascii_of_string (crlf s)))
          (split_lines (list_ascii_of_string s)).
Proof.
  induction s as [|c s IH]; cbn [crlf list_ascii_of_string].
  - repeat constructor.
  - destruct (Ascii.eqb c LF) eqn:Hc; cbn [list_ascii_of_string split_lines].
    + rewrite Hc. cbn [Ascii.eqb CR LF]. 
      change (Ascii.eqb CR LF) with false. cbv iota.
      change (Ascii.eqb LF LF) with true. cbv iota.
      constructor; [now right | exact IH].
    + rewrite Hc.
      pose proof (split_lines_not_empty (list_ascii_of_string (crlf s))) as H1.
      pose proof (split_lines_not_empty (list_ascii_of_string s)) as H2.
      destruct (split_lines (list_ascii_of_string (crlf s))) as [|x xs]; [congruence|].
      destruct (split_lines (list_ascii_of_string s)) as [|y ys]; [congruence|].
      inversion IH as [|? ? ? ? Hxy Hrest]; subst.
      constructor; [|exact Hrest].
      destruct Hxy as [-> | ->]; [now left | now right].
Qed.

Lemma fold_parse_line_cr (xs ys : list chars) :
  Forall2 (fun x y => x = y \/ x = y ++ [CR]) xs ys ->
  forall acc, fold_left parse_line xs acc = fold_left parse_line ys acc.
Proof.
  induction 1 as [|x y xs ys Hxy Hrest IH]; intros acc; [reflexivity|].
  cbn [fold_left]. rewrite IH. f_equal.
  destruct Hxy as [-> | ->]; [reflexivity|].
  apply (parse_line_padding acc [] y [CR]); reflexivity.
Qed.

(** X6. A file with the line ending CR LF is read as the same file
    with the line ending LF. *)
Theorem parseEnvFile_crlf (content : string) :
  parseEnvFile (crlf content) = parseEnvFile content.
Proof.
  unfold parseEnvFile. apply fold_parse_line_cr. apply split_lines_crlf.
Qed.

(** *** Writing a record and reading it back *)

Lemma concat_snoc (sep : string) (l : list string) (x : string) :
  l <> [] ->
  String.concat sep (l ++ [x]) = (String.concat sep l ++ sep ++ x)%string.
Proof.
  induction l as [|y l IH]; [congruence|]. intros _.
  destruct l as [|z l]; [reflexivity|].
  change (String.concat sep ((y :: z :: l) ++ [x]))
    with (y ++ sep ++ String.concat sep ((z :: l) ++ [x]))%string.
  rewrite IH by discriminate.
  change (String.concat sep (y :: z :: l))
    with (y ++ sep ++ String.concat sep (z :: l))%string.
  now rewrite !string_app_assoc.
Qed.

Lemma plain_entry_parts (k v : string) :
  plain_entry (k, v) = true ->
  identifier_shape k = true /\ k <> "__proto__"
  /\ tight v = true /\ no_line_terminator v = true /\ unquoted v = v.
Proof.
  unfold plain_entry, plain_value. cbn [fst snd]. intros H.
  repeat (apply andb_prop in H; destruct H as [H ?]).
  repeat match goal with
         | H : andb _ _ = true |- _ => apply andb_prop in H; destruct H
         end.
  repeat split; try assumption.
  - intros ->. discriminate.
  - now apply String.eqb_eq.
Qed.

Lemma parse_line_render_entry (acc : record) (k v : string) :
  plain_entry (k, v) = true ->
  parse_line acc (list_ascii_of_string (render_entry (k, v)))
  = define_property acc k v
  /\ one_line (render_entry (k, v)) = true.
Proof.
  intros H. apply plain_entry_parts in H.
  destruct H as [Hk [Hproto [Htight [Hline Hq]]]].
  pose proof (parse_line_assignment acc "" k "" "" v ""
                Hk eq_refl eq_refl eq_refl eq_refl Hline Htight) as Hparse.
  pose proof (assignment_one_line "" k "" "" v ""
                Hk eq_refl eq_refl eq_refl eq_refl Hline) as Hone.
  cbn [append] in Hparse, Hone. rewrite string_app_nil_r in Hparse, Hone.
  unfold render_entry. cbn [fst snd append].
  split; [|exact Hone].
  rewrite Hparse, Hq. unfold assign.
  destruct (String.eqb_spec k "__proto__"); [congruence | reflexivity].
Qed.

(** X7. A record of plain entries (an identifier other than
    [__proto__]; a value on one line with no white space at its ends and
    not between quotes), written one [KEY=VALUE] line per entry, is read
    back as it was. *)
Theorem parseEnvFile_render (o : record) :
  well_formed o ->
  forallb plain_entry o = true ->
  parseEnvFile (render o) = o.
Proof.
  induction o as [|[k v] o IH] using rev_ind; intros Hwf Hplain; [reflexivity|].
  rewrite forallb_app in Hplain. apply andb_prop in Hplain.
  destruct Hplain as [Ho He]. cbn [forallb] in He. rewrite andb_true_r in He.
  destruct (parse_line_render_entry [] k v He) as [_ Hone].
  unfold well_formed in Hwf. rewrite EnvParserFacts.keys_app in Hwf. cbn [keys map fst] in Hwf.
  assert (Hfresh : ~ In k (keys o)).
  { intros Hin. apply NoDup_remove_2 in Hwf. apply Hwf.
    rewrite app_nil_r. exact Hin. }
  assert (Hwf' : well_formed o).
  { apply NoDup_remove_1 in Hwf. now rewrite app_nil_r in Hwf. }
  unfold render. rewrite map_app. cbn [map].
  destruct o as [|e o].
  - cbn [app map String.concat].
    rewrite parseEnvFile_first_line by exact Hone.
    now destruct (parse_line_render_entry [] k v He) as [-> _].
  - rewrite concat_snoc by discriminate.
    rewrite parseEnvFile_append_line by exact Hone.
    destruct (parse_line_render_entry (parseEnvFile (render (e :: o))) k v He)
      as [Hparse _].
    unfold render in Hparse. rewrite Hparse.
    fold (render (e :: o)). rewrite (IH Hwf' Ho).
    now apply EnvParserFacts.define_property_fresh.
Qed.

(** *** Runs *)

Lemma parseEnvFile_assignment_line_witness :
  identifier_shape "B" = true
  /\ inline_space " " = true
  /\ no_line_terminator "x y" = true
  /\ tight "x y" = true
  /\ parseEnvFile ("A=1" ++ newline ++ " " ++ "B" ++ " " ++ "=" ++ " " ++ "x y" ++ " ")
     = [("A", "1"); ("B", "x y")].
Proof.
  do 4 (split; [reflexivity|]).
  exact (parseEnvFile_assignment_line "A=1" " " "B" " " " " "x y" " "
           eq_refl eq_refl eq_refl eq_refl eq_refl eq_refl eq_refl).
Defined.

Lemma parseEnvFile_quoted_value_witness :
  identifier_shape "B" = true
  /\ no_line_terminator " x " = true
  /\ parseEnvFile ("A=1" ++ newline
                     ++ "B" ++ "=" ++ String DQUOTE (" x " ++ String DQUOTE ""))
     = [("A", "1"); ("B", " x ")].
Proof.
  do 2 (split; [reflexivity|]).
  exact (parseEnvFile_quoted_value "A=1" "B" " x " DQUOTE
           eq_refl (or_introl eq_refl) eq_refl).
Defined.

Lemma parseEnvFile_skips_line_witness :
  one_line "# note" = true
  /\ no_name_at_start "# note" = true
  /\ parseEnvFile ("# note" ++ newline ++ "A=1") = parseEnvFile "A=1"
  /\ parseEnvFile ("A=1" ++ newline ++ "# note" ++ newline ++ "B=2")
     = parseEnvFile ("A=1" ++ newline ++ "B=2")
  /\ parseEnvFile ("A=1" ++ newline ++ "# note") = parseEnvFile "A=1"
  /\ parseEnvFile "# note" = parseEnvFile "".
Proof.
  do 2 (split; [reflexivity|]).
  split; [exact (parseEnvFile_skips_line [] ["A=1"] "# note" eq_refl eq_refl)|].
  split; [exact (parseEnvFile_skips_line ["A=1"] ["B=2"] "# note" eq_refl eq_refl)|].
  split; [exact (parseEnvFile_skips_line ["A=1"] [] "# note" eq_refl eq_refl)|].
  exact (parseEnvFile_skips_line [] [] "# note" eq_refl eq_refl).
Defined.

Lemma parseEnvFile_render_witness :
  well_formed [("A", "1"); ("B", "x y")]
  /\ forallb plain_entry [("A", "1"); ("B", "x y")] = true
  /\ parseEnvFile (render [("A", "1"); ("B", "x y")]) = [("A", "1"); ("B", "x y")].
Proof.
  assert (Hwf : well_formed [("A", "1"); ("B", "x y")]).
  { unfold well_formed; simpl. repeat constructor; simpl; intuition discriminate. }
  split; [exact Hwf|]. split; [reflexivity|].
  exact (parseEnvFile_render [("A", "1"); ("B", "x y")] Hwf eq_refl).
Defined.

End EnvFileFacts.

(** ** More on [filterValidSecrets] *)

Module FilterFacts.
Import Regex EnvParser EnvFile EnvFileFacts.

Lemma define_property_incl (o : record) (k v : string) (e : string * string) :
  In e (define_property o k v) -> e = (k, v) \/ In e o.
Proof.
  induction o as [|[k' v'] o IH]; simpl.
  - intros [<-|[]]. now left.
  - destruct (k =? k')%string; simpl.
    + intros [<-|H]; [now left | right; now right].
    + intros [<-|H]; [right; now left|].
      destruct (IH H) as [->|Hin]; [now left | right; now right].
Qed.

(** What the loop keeps true of the object [valid]. *)
Lemma filter_loop_valid (secrets : record) :
  forall valid invalid,
    well_formed valid ->
    forallb validateSecretName (keys valid) = true ->
    existsb (String.eqb "__proto__") (keys valid) = false ->
    let out := fold_left filter_step secrets (valid, invalid) in
    well_formed (fst out)
    /\ forallb validateSecretName (keys (fst out)) = true
    /\ existsb (String.eqb "__proto__") (keys (fst out)) = false
    /\ (forall e, In e (fst out) -> In e valid \/ In e secrets)
    /\ snd out = invalid ++ keys (filter (fun e => negb (valid_entry e)) secrets).
Proof.
  induction secrets as [|[name value] rest IH]; intros valid invalid Hwf Hval Hproto.
  - cbn. rewrite app_nil_r. repeat split; auto.
  - cbn [fold_left filter_step filter].
    change (valid_entry (name, value)) with (validateSecretName name).
    destruct (validateSecretName name) eqn:Hname; cbn [negb].
    + assert (Hnext : well_formed (assign valid name value)
                      /\ forallb validateSecretName (keys (assign valid name value)) = true
                      /\ existsb (String.eqb "__proto__") (keys (assign valid name value)) = false
                      /\ (forall e, In e (assign valid name value) ->
                                    e = (name, value) \/ In e valid)).
      { unfold assign.
        destruct (String.eqb_spec name "__proto__") as [->|Hne]; [now repeat split; auto|].
        unfold well_formed. rewrite keys_define_property.
        destruct (existsb (String.eqb name) (keys valid)) eqn:Hin.
        - repeat split; auto. apply define_property_incl.
        - repeat split.
          + apply NoDup_snoc; [exact Hwf|].
            intros H. apply existsb_eqb_In in H. congruence.
          + rewrite forallb_app, Hval. cbn [forallb andb]. now rewrite Hname.
          + rewrite existsb_app, Hproto. cbn [existsb orb]. rewrite orb_false_r.
            apply String.eqb_neq. congruence.
          + apply define_property_incl. }
      destruct Hnext as [Hwf' [Hval' [Hproto' Hincl']]].
      destruct (IH (assign valid name value) invalid Hwf' Hval' Hproto')
        as [H1 [H2 [H3 [H4 H5]]]].
      repeat split; auto.
      intros e He. destruct (H4 e He) as [Hin|Hin].
      * destruct (Hincl' e Hin) as [->|Hv]; [right; now left | now left].
      * right. now right.
    + destruct (IH valid (invalid ++ [name]) Hwf Hval Hproto)
        as [H1 [H2 [H3 [H4 H5]]]].
      repeat split; auto.
      * intros e He. destruct (H4 e He) as [Hin|Hin]; [now left | right; now right].
      * rewrite H5. cbn [keys map fst]. now rewrite <- app_assoc.
Qed.

(** X8. Whatever the record, the object [valid] holds entries of the
    input under pairwise distinct valid names, and [invalid] lists all
    the names that are not valid, in input order. *)
Theorem filterValidSecrets_sound (secrets : record) :
  well_formed (fst (filterValidSecrets secrets))
  /\ forallb validateSecretName (keys (fst (filterValidSecrets secrets))) = true
  /\ forallb (fun e => existsb (fun e' => (fst e =? fst e')%string
                                           && (snd e =? snd e')%string) secrets)
             (fst (filterValidSecrets secrets)) = true
  /\ snd (filterValidSecrets secrets)
     = keys (filter (fun e => negb (valid_entry e)) secrets).
Proof.
  destruct (filter_loop_valid secrets [] [] (NoDup_nil _) eq_refl eq_refl)
    as [H1 [H2 [_ [H4 H5]]]].
  unfold filterValidSecrets. repeat split; auto.
  apply forallb_forall. intros [k v] He.
  destruct (H4 _ He) as [[]|Hin].
  apply existsb_exists. exists (k, v). split; [exact Hin|].
  cbn [fst snd]. now rewrite !String.eqb_refl.
Qed.

(** X9. Filtering what was kept keeps all of it and rejects nothing. *)
Theorem filterValidSecrets_idempotent (secrets : record) :
  filterValidSecrets (fst (filterValidSecrets secrets))
  = (fst (filterValidSecrets secrets), []).
Proof.
  assert (H : well_formed (fst (filterValidSecrets secrets))
              /\ forallb validateSecretName
                         (keys (fst (filterValidSecrets secrets))) = true
              /\ existsb (String.eqb "__proto__")
                         (keys (fst (filterValidSecrets secrets))) = false).
  { pose proof (filter_loop_valid secrets [] [] (NoDup_nil _) eq_refl eq_refl) as H.
    cbv zeta in H. destruct H as [Hwf [Hval [Hproto _]]]. now repeat split. }
  revert H. generalize (fst (filterValidSecrets secrets)).
  intros valid [Hwf [Hval Hproto]].
  rewrite EnvParserFacts.filterValidSecrets_partition;
    [| exact Hwf | intros Hin; apply existsb_eqb_In in Hin; congruence].
  unfold partition_spec. clear Hwf Hproto.
  induction valid as [|[k v] valid IH]; [reflexivity|].
  cbn [keys map fst forallb] in Hval. apply andb_prop in Hval.
  destruct Hval as [Hk Hrest]. specialize (IH Hrest).
  cbn [filter]. change (valid_entry (k, v)) with (validateSecretName k).
  rewrite Hk. cbn [negb]. injection IH as IH1 IH2. now rewrite IH1, IH2.
Qed.

End FilterFacts.

(** ** More on the device flow *)

Module OAuthFlowFacts.
Import OAuth.

Section Polling.
Variables (this : OAuthConfig) (deviceCode : string) (interval : Z).

Lemma on_response_resolve (data data' : TokenData) :
  on_response interval data = Resolve data' ->
  data' = data /\ truthy (error data) = false /\ truthy (access_token data) = true.
Proof.
  unfold on_response.
  destruct (truthy (error data)).
  - repeat match goal with |- context [if ?b then _ else _] => destruct b end;
      discriminate.
  - destruct (truthy (access_token data)); [|discriminate].
    intros [= <-]. auto.
Qed.

Lemma on_response_schedule (data : TokenData) (ms : Z) :
  on_response interval data = Schedule ms ->
  ms = (interval * 1000)%Z \/ ms = ((interval + 5) * 1000)%Z.
Proof.
  unfold on_response.
  repeat match goal with |- context [if ?b then _ else _] => destruct b end;
    intros [= <-]; auto.
Qed.

(** X11. The promise is resolved only with one of the answers received,
    one that has no error and a non-empty access token. *)
Theorem pollForAccessToken_resolves_with_token (answers : list (result TokenData)) :
  match snd (pollForAccessToken this deviceCode interval answers) with
  | Resolved data =>
      truthy (error data) = false
      /\ truthy (access_token data) = true
      /\ In (Ok data) answers
  | _ => True
  end.
Proof.
  induction answers as [|a answers IH]; cbn [pollForAccessToken]; [exact I|].
  destruct (poll_once interval a) as [ms|data|e] eqn:Ha; cbn [snd]; [| |exact I].
  - destruct (pollForAccessToken this deviceCode interval answers) as [events p].
    cbn [snd] in *. destruct p; try exact I.
    destruct IH as [H1 [H2 H3]]. repeat split; auto. now right.
  - destruct a as [d|e]; [|discriminate]. cbn [poll_once] in Ha.
    apply on_response_resolve in Ha. destruct Ha as [-> [H1 H2]].
    repeat split; auto. now left.
Qed.

(** X12. There is no limit to an attempt: as long as the answers keep
    it polling it sends a request after each of them and stays pending,
    [expires_in] playing no part. *)
Theorem pollForAccessToken_never_gives_up (answers : list (result TokenData)) :
  forallb (keeps_polling interval) answers = true ->
  let attempt := pollForAccessToken this deviceCode interval answers in
  snd attempt = Pending
  /\ requests (fst attempt) = S (List.length answers)
  /\ List.length (waits (fst attempt)) = List.length answers.
Proof.
  intros Hkeep attempt. subst attempt.
  pose proof (OAuthFacts.poll_through this deviceCode interval answers [] Hkeep) as H.
  rewrite app_nil_r in H. rewrite H. cbn [pollForAccessToken fst snd].
  destruct (OAuthFacts.through_counts this deviceCode interval answers Hkeep)
    as [Hr Hw].
  rewrite OAuthFacts.requests_app, OAuthFacts.waits_app, length_app, Hr, Hw.
  repeat split; cbn; lia.
Qed.

(** X13. Whatever the answers: every request of an attempt is a POST to
    [https://github.com/login/oauth/access_token] with the client id of
    the object, the device code passed in and the device-flow grant type;
    every timer lasts [interval] or [interval + 5] seconds; and each
    timer is followed by a request. *)
Theorem pollForAccessToken_trace (answers : list (result TokenData)) :
  let events := fst (pollForAccessToken this deviceCode interval answers) in
  Forall (fun e => match e with
                   | Post url client_id device_code grant_type =>
                       url = "https://github.com/login/oauth/access_token"
                       /\ client_id = clientId this
                       /\ device_code = deviceCode
                       /\ grant_type = "urn:ietf:params:oauth:grant-type:device_code"
                   | SetTimeout ms =>
                       ms = (interval * 1000)%Z \/ ms = ((interval + 5) * 1000)%Z
                   end) events
  /\ requests events = S (List.length (waits events)).
Proof.
  cbv zeta.
  assert (Hpost : match token_request this deviceCode with
                  | Post url client_id device_code grant_type =>
                      url = "https://github.com/login/oauth/access_token"
                      /\ client_id = clientId this
                      /\ device_code = deviceCode
                      /\ grant_type = "urn:ietf:params:oauth:grant-type:device_code"
                  | SetTimeout ms =>
                      ms = (interval * 1000)%Z \/ ms = ((interval + 5) * 1000)%Z
                  end).
  { cbn. repeat split. }
  induction answers as [|a answers IH]; cbn [pollForAccessToken].
  - split; [repeat constructor; exact Hpost | reflexivity].
  - destruct (poll_once interval a) as [ms|data|e] eqn:Ha;
      try (split; [repeat constructor; exact Hpost | reflexivity]).
    destruct (pollForAccessToken this deviceCode interval answers) as [events p].
    cbn [fst] in *. destruct IH as [IH1 IH2]. split.
    + constructor; [exact Hpost|]. constructor; [|exact IH1].
      destruct a as [d|e]; [|discriminate].
      cbn [poll_once] in Ha. now apply on_response_schedule in Ha.
    + unfold requests in *. cbn. now rewrite IH2.
Qed.

(** X14. An answer with no error and a non-empty access token resolves
    the promise with that answer, wherever it comes in the attempt, and
    nothing is requested after it. *)
Theorem token_ends_attempt
        (before later : list (result TokenData)) (data : TokenData) :
  forallb (keeps_polling interval) before = true ->
  truthy (error data) = false ->
  truthy (access_token data) = true ->
  let attempt :=
    pollForAccessToken this deviceCode interval (before ++ Ok data :: later) in
  snd attempt = Resolved data
  /\ requests (fst attempt) = S (List.length before)
  /\ List.length (waits (fst attempt)) = List.length before.
Proof.
  intros Hkeep Herr Htok attempt. subst attempt.
  rewrite (OAuthFacts.poll_through this deviceCode interval before _ Hkeep).
  cbn [pollForAccessToken poll_once]. unfold on_response. rewrite Herr, Htok.
  cbn [fst snd].
  destruct (OAuthFacts.through_counts this deviceCode interval before Hkeep)
    as [Hr Hw].
  rewrite OAuthFacts.requests_app, OAuthFacts.waits_app, length_app, Hr, Hw.
  repeat split; cbn; lia.
Qed.

End Polling.

Lemma pollForAccessToken_never_gives_up_witness :
  let answers := [error_answer "authorization_pending"; error_answer "slow_down"] in
  forallb (keeps_polling 5) answers = true
  /\ snd (pollForAccessToken demo_config "dc" 5 answers) = Pending
  /\ requests (fst (pollForAccessToken demo_config "dc" 5 answers)) = 3%nat.
Proof.
  intros answers.
  pose proof (pollForAccessToken_never_gives_up demo_config "dc" 5 answers eq_refl)
    as H.
  split; [reflexivity|].
  split; [exact (proj1 H) | exact (proj1 (proj2 H))].
Defined.

Lemma token_ends_attempt_witness :
  let before := [error_answer "authorization_pending"] in
  let data := {| error := None; access_token := Some "tok";
                 token_type := Some "bearer"; scope := Some "repo" |} in
  forallb (keeps_polling 5) before = true
  /\ truthy (error data) = false
  /\ truthy (access_token data) = true
  /\ snd (pollForAccessToken demo_config "dc" 5
             (before ++ Ok data :: [error_answer "access_denied"]))
     = Resolved data
  /\ requests (fst (pollForAccessToken demo_config "dc" 5
                      (before ++ Ok data :: [error_answer "access_denied"])))
     = 2%nat.
Proof.
  intros before data.
  pose proof (token_ends_attempt demo_config "dc" 5 before
                [error_answer "access_denied"] data eq_refl eq_refl eq_refl) as H.
  do 3 (split; [reflexivity|]).
  split; [exact (proj1 H) | exact (proj1 (proj2 H))].
Defined.

End OAuthFlowFacts.

(** ** More on the upload *)

Module GitHubLogFacts.
Import GitHub GitHubLog.

Lemma added_app {W} (w w' : W) (log more : list request) :
  added (w, log) (w', log ++ more) = more.
Proof.
  unfold added. cbn [snd].
  rewrite skipn_app, skipn_all, Nat.sub_diag. reflexivity.
Qed.

Lemma put_names_app (a b : list request) :
  put_names (a ++ b) = put_names a ++ put_names b.
Proof.
  induction a as [|[o r|o r n c k] a IH]; cbn; [reflexivity | exact IH | now rewrite IH].
Qed.

Lemma forallb_existsb_self (l : list string) :
  forallb (fun n => existsb (String.eqb n) l) l = true.
Proof.
  apply forallb_forall. intros n Hin.
  apply existsb_exists. exists n. split; [exact Hin | apply String.eqb_refl].
Qed.

Lemma forallb_existsb_app (l a b : list string) :
  forallb (fun n => existsb (String.eqb n) b) l = true ->
  forallb (fun n => existsb (String.eqb n) (a ++ b)) l = true.
Proof.
  rewrite !forallb_forall. intros H n Hin.
  rewrite existsb_app, (H n Hin). apply orb_true_r.
Qed.

Lemma succeeded_app (n1 n2 : list string) (r1 r2 : list (result unit)) :
  List.length r1 = List.length n1 ->
  succeeded (n1 ++ n2) (r1 ++ r2) = succeeded n1 r1 ++ succeeded n2 r2.
Proof.
  revert r1. induction n1 as [|n n1 IH]; intros [|[u|e] r1] Hlen;
    cbn in *; try discriminate; try reflexivity.
  - rewrite IH by lia. reflexivity.
  - apply IH. lia.
Qed.

Lemma rejected_app (n1 n2 : list string) (r1 r2 : list (result unit)) :
  List.length r1 = List.length n1 ->
  rejected (n1 ++ n2) (r1 ++ r2) = rejected n1 r1 ++ rejected n2 r2.
Proof.
  revert r1. induction n1 as [|n n1 IH]; intros [|[u|e] r1] Hlen;
    cbn in *; try discriminate; try reflexivity.
  - apply IH. lia.
  - rewrite IH by lia. reflexivity.
Qed.

Section Batch.
Context {W : Type} (P : Platform W).

(** What one call adds to the log: the request for the key, and the PUT
    request under the name of the secret if it got that far; it got that
    far if it succeeded. *)
Lemma createOrUpdateRepoSecret_log
      (owner repo secretName secretValue : string) (st : store) :
  let run := createOrUpdateRepoSecret P owner repo secretName secretValue st in
  exists more,
    snd (snd run) = snd st ++ GetPublicKey owner repo :: more
    /\ ((more = [] /\ exists e, fst run = Err e)
        \/ exists sealed key_id,
            more = [PutSecret owner repo secretName sealed key_id]).
Proof.
  destruct st as [w0 log]. cbv zeta.
  rewrite GitHubFacts.createOrUpdateRepoSecret_unfold.
  destruct (get_public_key P owner repo w0) as [[publicKeyData|e] w1].
  - destruct (encrypt_spec P secretValue (key publicKeyData) w1) as [[sealed|e] w2].
    + destruct (put_secret P owner repo secretName sealed (key_id publicKeyData) w2).
      eexists. split; [reflexivity|]. right. eauto.
    + exists []. split; [reflexivity|]. left.
      split; [reflexivity | eexists; reflexivity].
  - exists []. split; [reflexivity|]. left.
    split; [reflexivity | eexists; reflexivity].
Qed.

Lemma outcomes_app (owner repo : string) (l1 l2 : list (string * string)) :
  forall st,
    outcomes P owner repo (l1 ++ l2) st
    = (fst (outcomes P owner repo l1 st)
         ++ fst (outcomes P owner repo l2 (snd (outcomes P owner repo l1 st))),
       snd (outcomes P owner repo l2 (snd (outcomes P owner repo l1 st)))).
Proof.
  induction l1 as [|[name value] l1 IH]; intros st; cbn [app outcomes].
  - cbn. now destruct (outcomes P owner repo l2 st).
  - destruct (createOrUpdateRepoSecret P owner repo name value st) as [r st1].
    rewrite IH.
    destruct (outcomes P owner repo l1 st1) as [rs1 st2]. cbn [fst snd].
    now destruct (outcomes P owner repo l2 st2).
Qed.

(** What a batch adds to the log. *)
Lemma outcomes_log (owner repo : string) (entries : list (string * string)) :
  forall st,
  exists more,
    snd (snd (outcomes P owner repo entries st)) = snd st ++ more
    /\ paired more = true
    /\ match more with PutSecret _ _ _ _ _ :: _ => False | _ => True end
    /\ (forall f : string -> bool,
           forallb f (keys entries) = true -> forallb f (put_names more) = true)
    /\ forallb (fun n => existsb (String.eqb n) (put_names more))
              (succeeded (keys entries) (fst (outcomes P owner repo entries st)))
       = true.
Proof.
  induction entries as [|[name value] rest IH]; intros st.
  - exists []. cbn. rewrite app_nil_r. auto.
  - cbn [outcomes].
    destruct (createOrUpdateRepoSecret_log owner repo name value st)
      as [one [Hlog Hone]].
    destruct (createOrUpdateRepoSecret P owner repo name value st) as [r st1].
    cbn [fst snd] in Hlog, Hone.
    destruct (IH st1) as [more [Hmore [Hpaired [Hhead [Hnames Hsucc]]]]].
    destruct (outcomes P owner repo rest st1) as [rs st2].
    cbn [fst snd] in *.
    exists (GetPublicKey owner repo :: one ++ more).
    split.
    { rewrite Hmore, Hlog, <- app_assoc. reflexivity. }
    destruct Hone as [[-> [e ->]] | [sealed [kid ->]]]; cbn [app keys map fst succeeded].
    + split; [|split; [exact I|split]].
      * destruct more as [|[o r'|o r' n c k] more]; cbn [paired];
          try contradiction; auto.
      * intros f Hf. cbn [forallb] in Hf. apply andb_prop in Hf.
        cbn [put_names]. apply Hnames. tauto.
      * exact Hsucc.
    + split; [|split; [exact I|split]].
      * cbn [paired]. now rewrite !String.eqb_refl, Hpaired.
      * intros f Hf. cbn [forallb] in Hf. apply andb_prop in Hf.
        cbn [put_names forallb]. destruct Hf as [-> Hf]. now apply Hnames.
      * cbn [put_names].
        assert (Hrest : forallb (fun n => existsb (String.eqb n)
                                            (name :: put_names more))
                                (succeeded (keys rest) rs) = true).
        { apply (forallb_existsb_app _ [name] _ Hsucc). }
        destruct r as [u|e]; [|exact Hrest].
        cbn [forallb]. apply andb_true_intro. split; [|exact Hrest].
        cbn [existsb]. now rewrite String.eqb_refl.
Qed.

(** X16. A batch only adds to the log; every PUT request it adds comes
    right after a request for the key of the repository and carries a
    name of the record, and every name reported in [success] had its PUT
    request. *)
Theorem batchCreateSecrets_log (owner repo : string) (secrets : record) (st : store) :
  let run := batchCreateSecrets P owner repo secrets st in
  let log := added st (snd run) in
  snd (snd run) = snd st ++ log
  /\ paired log = true
  /\ forallb (fun n => existsb (String.eqb n) (keys secrets)) (put_names log) = true
  /\ match fst run with
     | Ok result =>
         forallb (fun n => existsb (String.eqb n) (put_names log))
                 (success result) = true
     | Err _ => False
     end.
Proof.
  cbv zeta. unfold batchCreateSecrets.
  rewrite GitHubFacts.batch_loop_outcomes. cbn [fst snd success failed app].
  destruct (outcomes_log owner repo secrets st)
    as [more [Hmore [Hpaired [_ [Hnames Hsucc]]]]].
  destruct st as [w log].
  destruct (outcomes P owner repo secrets (w, log)) as [rs [w' log']].
  cbn [fst snd] in *. subst log'. rewrite added_app.
  repeat split; auto.
  apply Hnames. apply forallb_existsb_self.
Qed.

(** X17. A batch over a record in two parts is the batch over the first
    part followed by the batch over the second, the results put end to
    end. *)
Theorem batchCreateSecrets_app (owner repo : string) (s1 s2 : record) (st : store) :
  batchCreateSecrets P owner repo (s1 ++ s2) st
  = match batchCreateSecrets P owner repo s1 st with
    | (Ok r1, st1) =>
        match batchCreateSecrets P owner repo s2 st1 with
        | (Ok r2, st2) =>
            (Ok {| success := success r1 ++ success r2;
                   failed := failed r1 ++ failed r2 |}, st2)
        | (Err e, st2) => (Err e, st2)
        end
    | (Err e, st1) => (Err e, st1)
    end.
Proof.
  unfold batchCreateSecrets. rewrite !GitHubFacts.batch_loop_outcomes.
  cbv iota beta.
  rewrite outcomes_app. cbn [fst snd success failed app].
  unfold keys. rewrite map_app.
  assert (Hlen : List.length (fst (outcomes P owner repo s1 st))
                 = List.length (map fst s1)).
  { rewrite length_map. apply GitHubFacts.outcomes_length. }
  now rewrite succeeded_app, rejected_app.
Qed.

End Batch.

End GitHubLogFacts.

(** ** The command line *)

Module CliFacts.
Import Regex EnvParser EnvFile GitHub GitHubLog Cli.

Lemma test_name_pattern (value : string) :
  test name_pattern value = identifier_shape value.
Proof.
  unfold name_pattern. rewrite EnvParserFacts.test_anchored.
  unfold identifier_shape. cbn [rmatch].
  destruct (list_ascii_of_string value) as [|c rest]; [reflexivity|].
  unfold name_start. f_equal.
  apply EnvParserFacts.star_class_to_end; auto.
Qed.

(** X10. The prompt for the name of one secret accepts exactly the
    names that [validateSecretName] accepts. *)
Theorem validate_name_agrees (value : string) :
  is_accepted (validate_name value) = validateSecretName value.
Proof.
  rewrite EnvParserFacts.validateSecretName_unfold.
  unfold validate_name, isValidName_spec, reserved_prefix.
  rewrite test_name_pattern.
  destruct (String.eqb_spec value "") as [->|Hne]; [reflexivity|].
  destruct (identifier_shape value); [|reflexivity].
  now destruct (String.prefix "GITHUB_" value).
Qed.

Lemma added_same {W} (st : @store W) : added st st = [].
Proof. unfold added. apply skipn_all. Qed.

(** X18. [uploadSecretsFromFile] lets no error escape, issues PUT
    requests under valid names only, each right after a request for the
    key, and issues no request at all unless the user confirmed the
    upload. *)
Theorem uploadSecretsFromFile_safe
        {W : Type} (P : Platform W) (readFileSync : string -> result string)
        (owner repo : string) (filePath : result string)
        (confirmUpload : result bool) (st : store) :
  let run := uploadSecretsFromFile P readFileSync owner repo
                                   filePath confirmUpload st in
  let log := added st (snd run) in
  snd (snd run) = snd st ++ log
  /\ paired log = true
  /\ forallb validateSecretName (put_names log) = true
  /\ match fst run with Ok _ => True | Err _ => False end
  /\ match confirmUpload with
     | Ok true => True
     | _ => run = (Ok None, st)
     end.
Proof.
  cbv zeta.
  assert (Hskip : forall c : result bool,
             snd (snd (@ret W _ (@None BatchResult) st))
             = snd st ++ added st (snd (@ret W _ (@None BatchResult) st))
             /\ paired (added st (snd (@ret W _ (@None BatchResult) st))) = true
             /\ forallb validateSecretName
                        (put_names (added st (snd (@ret W _ (@None BatchResult) st))))
                = true
             /\ match fst (@ret W _ (@None BatchResult) st) with
                | Ok _ => True | Err _ => False end
             /\ match c with
                | Ok true => True
                | _ => @ret W _ (@None BatchResult) st = (Ok None, st)
                end).
  { intros c. unfold ret. cbn [fst snd]. rewrite added_same, app_nil_r.
    repeat split. destruct c as [[]|]; auto. }
  unfold uploadSecretsFromFile.
  destruct filePath as [path|e]; [|apply Hskip].
  destruct (readEnvFile readFileSync path) as [secrets|e]; [|apply Hskip].
  destruct (List.length (keys secrets) =? 0)%nat; [apply Hskip|].
  pose proof (FilterFacts.filter_loop_valid secrets [] [] (NoDup_nil _) eq_refl eq_refl)
    as Hvalid.
  cbv zeta in Hvalid. destruct Hvalid as [_ [Hvalid _]].
  change (fold_left filter_step secrets ([], [])) with (filterValidSecrets secrets)
    in Hvalid.
  destruct (filterValidSecrets secrets) as [valid invalid]. cbn [fst] in Hvalid.
  destruct (List.length (keys valid) =? 0)%nat; [apply Hskip|].
  destruct confirmUpload as [[|]|e];
    [|exact (Hskip (Ok false))|exact (Hskip (Err e))].
  unfold bind, batchCreateSecrets. rewrite GitHubFacts.batch_loop_outcomes.
  unfold ret. cbn [fst snd].
  destruct (GitHubLogFacts.outcomes_log P owner repo valid st)
    as [more [Hmore [Hpaired [_ [Hnames _]]]]].
  destruct st as [w log].
  destruct (outcomes P owner repo valid (w, log)) as [rs [w' log']].
  cbn [fst snd] in *. subst log'. rewrite GitHubLogFacts.added_app.
  repeat split; auto.
Qed.

End CliFacts.
